(** * elm-language-server: find-tests provider and elm utilities

    A shallow embedding of [src/util/elmUtils.ts] ([isTestFile], [execCmd],
    [getElmVersion], [findDepVersion] with [filterSemver] and [cmp])
    and [src/providers/findTestsProvider.ts] (the find-tests request handler,
    [findAllTestSuites], [findTestFunctionCall], [findTestSuite] and their
    helpers), with the properties the specification states about them. *)

From Stdlib Require Import String Ascii List ZArith Lia Bool DecimalString Sorted.
From stdpp Require Import base option strings gmap finite.
From Equations Require Import Equations.
Import ListNotations.

Set Warnings "-register-all".

Local Open Scope string_scope.
Local Open Scope list_scope.

(** ** JavaScript runtime: strings, exceptions *)

Module JS.

(** [s.startsWith(searchString)]: [searchString] is an initial segment of
    [s], compared code unit by code unit. *)
Definition startsWith (s searchString : string) : bool :=
  String.prefix searchString s.

(** [s.includes(searchString)]. *)
Fixpoint includes (s searchString : string) : bool :=
  if String.prefix searchString s then true
  else match s with
       | EmptyString => false
       | String _ rest => includes rest searchString
       end.

(** [s.lastIndexOf(c)] for a one-character search string: the index of the
    last occurrence, [-1] when there is none. *)
Fixpoint lastIndexOf_from (i : Z) (acc : Z) (s : string) (c : ascii) : Z :=
  match s with
  | EmptyString => acc
  | String a rest =>
      lastIndexOf_from (i + 1) (if Ascii.eqb a c then i else acc) rest c
  end.

Definition lastIndexOf (s : string) (c : ascii) : Z :=
  lastIndexOf_from 0 (-1) s c.

(** [s.substring(0, n)] for [0 <= n]. *)
Definition substring0 (s : string) (n : Z) : string :=
  String.substring 0 (Z.to_nat n) s.

(** [s.split(sep)] for a one-character separator. *)
Fixpoint split_from (cur : string) (s : string) (sep : ascii) : list string :=
  match s with
  | EmptyString => [cur]
  | String a rest =>
      if Ascii.eqb a sep then cur :: split_from EmptyString rest sep
      else split_from (cur +:+ String a EmptyString) rest sep
  end.

Definition split (s : string) (sep : ascii) : list string :=
  split_from EmptyString s sep.

(** [parts.join(sep)]. *)
Fixpoint join (parts : list string) (sep : string) : string :=
  match parts with
  | [] => EmptyString
  | [p] => p
  | p :: rest => p +:+ sep +:+ join rest sep
  end.

(** A template literal renders an absent value as the text [undefined]. *)
Definition template (v : option string) : string :=
  match v with
  | Some s => s
  | None => "undefined"
  end.

(** [String(n)] for a natural number. *)
Definition String_of_nat (n : nat) : string :=
  NilZero.string_of_uint (Nat.to_uint n).

(** A computation that either returns a value or throws. *)
Inductive completion (E A : Type) : Type :=
| Return (a : A)
| Throw (e : E).
Arguments Return {E A} a.
Arguments Throw {E A} e.

Definition bind {E A B} (m : completion E A) (k : A -> completion E B)
  : completion E B :=
  match m with
  | Return a => k a
  | Throw e => Throw e
  end.

(** [xs.map(f)] where [f] may throw: the first exception aborts the map. *)
Fixpoint mapM {E A B} (f : A -> completion E B) (xs : list A)
  : completion E (list B) :=
  match xs with
  | [] => Return []
  | x :: rest =>
      bind (f x) (fun y => bind (mapM f rest) (fun ys => Return (y :: ys)))
  end.

End JS.

#[export] Instance completion_ret {E} : MRet (JS.completion E) :=
  fun _ a => JS.Return a.
#[export] Instance completion_bind {E} : MBind (JS.completion E) :=
  fun _ _ k m => JS.bind m k.

(** ** Node's [path] module

    [isTestFile] calls [path.join], which Node resolves to the POSIX or the
    Windows implementation at start-up.  The interface is a class; the POSIX
    implementation is given as an instance. *)

Class Path := { path_join : string -> string -> string }.

Module Posix.

(** One step of [normalizeString]: [.] and empty segments are dropped,
    [..] removes the last kept segment, or is kept when the path is
    relative and nothing is left to remove.  [acc] is in reverse order. *)
Definition pushSegment (allowAboveRoot : bool) (acc : list string)
    (seg : string) : list string :=
  if String.eqb seg EmptyString || String.eqb seg "." then acc
  else if String.eqb seg ".." then
    match acc with
    | last :: before =>
        if String.eqb last ".." then seg :: acc else before
    | [] => if allowAboveRoot then [seg] else []
    end
  else seg :: acc.

Definition normalizeString (p : string) (allowAboveRoot : bool) : string :=
  JS.join (rev (fold_left (pushSegment allowAboveRoot) (JS.split p "/") []))
          "/".

Definition endsWithSlash (p : string) : bool :=
  match rev (list_ascii_of_string p) with
  | c :: _ => Ascii.eqb c "/"
  | [] => false
  end.

Definition normalize (p : string) : string :=
  if String.eqb p EmptyString then "."
  else
    let isAbsolute := JS.startsWith p "/" in
    let trailingSeparator := endsWithSlash p in
    let q := normalizeString p (negb isAbsolute) in
    if String.eqb q EmptyString then
      if isAbsolute then "/" else if trailingSeparator then "./" else "."
    else
      let q := if trailingSeparator then q +:+ "/" else q in
      if isAbsolute then "/" +:+ q else q.

(** [path.join(a, b)]: empty arguments are skipped, the rest joined with
    [/] and normalised. *)
Definition join (a b : string) : string :=
  let parts := List.filter (fun s => negb (String.eqb s EmptyString)) [a; b] in
  match parts with
  | [] => "."
  | _ => normalize (JS.join parts "/")
  end.

#[export] Instance path : Path := {| path_join := join |}.

End Posix.

(** ** [src/util/elmUtils.ts] *)

Definition isTestFile `{Path} (filename rootPath : string) : bool :=
  let testFolder := path_join rootPath "tests" in
  if JS.startsWith filename testFolder then true else false.


(** *** [execCmd]

    [execCmd] starts a child process and returns a promise extended with
    [stdin], [kill] and [isRunning].  The closures it creates share the
    variables [firstResponse] and [wasKilledByUs], the [isRunning] field and
    the promise; Node and the caller drive them through events.  The model is
    the state those closures share and one transition per event.  The calls
    of the callbacks of [options] and of [showErrorMessage] are recorded as
    effects. *)

(** [cp.ExecException]: an [Error] with an exit [code]. *)
Record ExecException := {
  message : string;
  code : option Z;
}.

Inductive PromiseState :=
| Pending
| Fulfilled (stdout stderr : string)
| Rejected (error : ExecException).

(** What [execCmd] does to the outside world, in the order it happens. *)
Inductive Effect :=
| Exec (fullCommand : string)
| CallOnStart
| CallOnStdout (data : string)
| CallOnStderr (data : string)
| CallOnExit
| ShowErrorMessage (text : string)
| KillSigint
| SpawnTaskkill.

(** A callback of [options] is code of the caller, which holds the handle.
    It is taken to return normally.  What it can do to the variables the
    closures share is call [kill()], so a callback is modelled by the number
    of times it calls [kill()] while it runs, given everything that has
    happened so far: the effects up to its own call, which comes last and
    holds the data it is called with. *)
Definition Callback : Type := list Effect -> nat.

Record IExecCmdOptions := {
  cmdArguments : option (list string);
  showMessageOnError : bool;
  onStart : option Callback;
  onStdout : option Callback;
  onStderr : option Callback;
  onExit : option Callback;
  notFoundText : option string;
}.

Record ExecutingCmd := {
  isRunning : bool;
  wasKilledByUs : bool;
  firstResponse : bool;
  promise : PromiseState;
  effects : list Effect;
}.

(** The platform and the child process as [cp.exec] hands it back. *)
Record ExecEnv := {
  isWindows : bool;
  hasStdout : bool;    (* [childProcess.stdout] is not null *)
  hasStderr : bool;
}.

(** What the caller is allowed to do with the handle, and the data the child
    writes.  The exit callback is not in this type: [cp.exec] calls it once. *)
Inductive Action :=
| StdoutData (data : string)
| StderrData (data : string)
| Kill.

Inductive Event :=
| Act (a : Action)
| Exit (error : option ExecException) (stdout stderr : string).

Section ExecCmd.

Variable cmd : string.
Variable options : IExecCmdOptions.
Variable env : ExecEnv.

Definition emit (e : Effect) (st : ExecutingCmd) : ExecutingCmd :=
  {| isRunning := isRunning st; wasKilledByUs := wasKilledByUs st;
     firstResponse := firstResponse st; promise := promise st;
     effects := effects st ++ [e] |}.

(** [resolve] and [reject] settle a promise once; later calls do nothing. *)
Definition settle (p : PromiseState) (st : ExecutingCmd) : ExecutingCmd :=
  {| isRunning := isRunning st; wasKilledByUs := wasKilledByUs st;
     firstResponse := firstResponse st;
     promise := match promise st with Pending => p | settled => settled end;
     effects := effects st |}.

Definition fullCommand : string :=
  cmd +:+ " " +:+ JS.join (default [] (cmdArguments options)) " ".

(** The state when [execCmd] returns. *)
Definition execCmd : ExecutingCmd :=
  {| isRunning := true; wasKilledByUs := false; firstResponse := true;
     promise := Pending; effects := [Exec fullCommand] |}.

Definition killProcess (st : ExecutingCmd) : ExecutingCmd :=
  let st := {| isRunning := isRunning st; wasKilledByUs := true;
               firstResponse := firstResponse st; promise := promise st;
               effects := effects st |} in
  if isWindows env then emit SpawnTaskkill st else emit KillSigint st.

(** [if (callback) { callback(...) }]: the call, then the calls of [kill()]
    the callback makes before it returns. *)
Definition callIfGiven (callback : option Callback) (called : Effect)
    (st : ExecutingCmd) : ExecutingCmd :=
  match callback with
  | Some callback =>
      let st := emit called st in
      Nat.iter (callback (effects st)) killProcess st
  | None => st
  end.

(** The [data] listener of [stdout] or [stderr]. *)
Definition onData (listener : option Callback) (called : Effect)
    (st : ExecutingCmd) : ExecutingCmd :=
  let st := if firstResponse st
            then callIfGiven (onStart options) CallOnStart st else st in
  let st := {| isRunning := isRunning st; wasKilledByUs := wasKilledByUs st;
               firstResponse := false; promise := promise st;
               effects := effects st |} in
  callIfGiven listener called st.

Definition cmdName : string := hd EmptyString (JS.split cmd " ").

Definition cmdWasNotFound (error : ExecException) : bool :=
  (isWindows env &&
     JS.includes (message error) ("'" +:+ cmdName +:+ "' is not recognized"))
  || (negb (isWindows env) &&
        match code error with Some c => Z.eqb c 127 | None => false end).

Definition errorMessage (error : ExecException) : string :=
  if cmdWasNotFound error
  then cmdName +:+ " is not available in your path. "
         +:+ JS.template (notFoundText options)
  else message error.

(** The exit callback: [onExit] is called before [wasKilledByUs] is read. *)
Definition handleExit (error : option ExecException) (stdout stderr : string)
    (st : ExecutingCmd) : ExecutingCmd :=
  let st := {| isRunning := false; wasKilledByUs := wasKilledByUs st;
               firstResponse := firstResponse st; promise := promise st;
               effects := effects st |} in
  let st := callIfGiven (onExit options) CallOnExit st in
  if negb (wasKilledByUs st) then
    match error with
    | Some err =>
        if showMessageOnError options
        then emit (ShowErrorMessage (errorMessage err)) st
        else settle (Rejected err) st
    | None => settle (Fulfilled stdout stderr) st
    end
  else st.

Definition step (st : ExecutingCmd) (ev : Event) : ExecutingCmd :=
  match ev with
  | Act (StdoutData data) =>
      if hasStdout env
      then onData (onStdout options) (CallOnStdout data) st else st
  | Act (StderrData data) =>
      if hasStdout env && hasStderr env
      then onData (onStderr options) (CallOnStderr data) st else st
  | Act Kill => killProcess st
  | Exit error stdout stderr => handleExit error stdout stderr st
  end.

(** One run of the command: what happens before the exit callback, the
    exit itself, and what the caller still does afterwards. *)
Definition run (before : list Action) (error : option ExecException)
    (stdout stderr : string) (after : list Action) : ExecutingCmd :=
  fold_left step
    (map Act before ++ [Exit error stdout stderr] ++ map Act after)
    execCmd.

End ExecCmd.

(** [execCmd] driven by any sequence of events. *)
Definition drive (cmd : string) (options : IExecCmdOptions) (env : ExecEnv)
    (events : list Event) : ExecutingCmd :=
  fold_left (step cmd options env) events (execCmd cmd options).

(** The calls of [kill()], as the effects show them: every call sends the
    signal or spawns [taskkill]. *)
Definition isKillCall (e : Effect) : bool :=
  match e with
  | KillSigint | SpawnTaskkill => true
  | _ => false
  end.

Definition killEffect (env : ExecEnv) : Effect :=
  if isWindows env then SpawnTaskkill else KillSigint.

(** What [if (callback) { callback(...) }] adds to the effects [history]:
    the call and the calls of [kill()] the callback makes. *)
Definition callEffects (env : ExecEnv) (callback : option Callback)
    (called : Effect) (history : list Effect) : list Effect :=
  match callback with
  | Some callback =>
      called :: repeat (killEffect env) (callback (history ++ [called]))
  | None => []
  end.

(** The effects when the exit callback reads [wasKilledByUs]: those of the
    events before the exit, then the call of [onExit], which the exit
    callback makes first. *)
Definition effectsWhenTested (cmd : string) (options : IExecCmdOptions)
    (env : ExecEnv) (before : list Action) : list Effect :=
  let history := effects (drive cmd options env (map Act before)) in
  history ++ callEffects env (onExit options) CallOnExit history.

(** [kill()] has been called on the handle, by the caller or by a callback,
    when the exit callback reads [wasKilledByUs]. *)
Definition killedWhenTested (cmd : string) (options : IExecCmdOptions)
    (env : ExecEnv) (before : list Action) : bool :=
  existsb isKillCall (effectsWhenTested cmd options env before).

(** ** Syntax trees (the [web-tree-sitter] API) *)

Record Point := { row : nat; column : nat }.

Inductive SyntaxNode := mkSyntaxNode {
  id : nat;
  type : string;
  text : string;
  startPosition : Point;
  children : list SyntaxNode;
}.

Record Tree := { rootNode : SyntaxNode }.

Fixpoint node_size (n : SyntaxNode) : nat :=
  match n with
  | mkSyntaxNode _ _ _ _ cs => S (list_sum (map node_size cs))
  end.

(** The proper descendants of a node, in document order. *)
Fixpoint descendants (n : SyntaxNode) : list SyntaxNode :=
  match n with
  | mkSyntaxNode _ _ _ _ cs => flat_map (fun c => c :: descendants c) cs
  end.

(** A node and everything below it. *)
Definition subtree (n : SyntaxNode) : list SyntaxNode := n :: descendants n.

(** [node.descendantsOfType(type)]: the traversal starts at the node itself. *)
Definition node_descendantsOfType (n : SyntaxNode) (ty : string)
  : list SyntaxNode :=
  List.filter (fun d => String.eqb (type d) ty) (subtree n).

Lemma node_size_child (n c : SyntaxNode) :
  In c (children n) -> node_size c < node_size n.
Proof.
  destruct n as [i ty tx sp cs]; simpl.
  induction cs as [|c' cs IH]; simpl; [tauto|].
  intros [->|Hin]; [lia|]. specialize (IH Hin). lia.
Qed.

Lemma SyntaxNode_size_ind (P : SyntaxNode -> Prop) :
  (forall n, (forall m, node_size m < node_size n -> P m) -> P n) ->
  forall n, P n.
Proof.
  intros step n.
  assert (H : forall k m, node_size m < k -> P m).
  { induction k as [|k IH]; intros m Hm; [lia|].
    apply step. intros m' Hm'. apply IH. lia. }
  apply (H (S (node_size n))). lia.
Qed.

Lemma descendants_children (n d : SyntaxNode) :
  In d (descendants n) <->
  exists c, In c (children n) /\ (d = c \/ In d (descendants c)).
Proof.
  destruct n as [i ty tx sp cs]; simpl. rewrite in_flat_map.
  split; intros (c & Hc & Hd); exists c; (split; [exact Hc|]).
  - destruct Hd as [->|Hd]; auto.
  - destruct Hd as [->|Hd]; [now left | now right].
Qed.

Lemma node_size_descendant (n d : SyntaxNode) :
  In d (descendants n) -> node_size d < node_size n.
Proof.
  revert d. induction n as [n IH] using SyntaxNode_size_ind. intros d Hd.
  apply descendants_children in Hd as (c & Hc & Hd).
  pose proof (node_size_child n c Hc) as Hlt.
  destruct Hd as [->|Hd]; [exact Hlt|].
  specialize (IH c Hlt d Hd). lia.
Qed.

Lemma descendants_trans (n m d : SyntaxNode) :
  In m (descendants n) -> In d (descendants m) -> In d (descendants n).
Proof.
  revert m d. induction n as [n IH] using SyntaxNode_size_ind.
  intros m d Hm Hd.
  apply descendants_children in Hm as (c & Hc & Hm).
  apply descendants_children. exists c. split; [exact Hc|]. right.
  destruct Hm as [->|Hm]; [exact Hd|].
  exact (IH c (node_size_child n c Hc) m d Hm Hd).
Qed.

Lemma node_size_subtree (n d : SyntaxNode) :
  In d (subtree n) -> node_size d <= node_size n.
Proof.
  intros [->|Hd]; [lia|]. apply node_size_descendant in Hd. lia.
Qed.

Lemma subtree_descendants (n m d : SyntaxNode) :
  In m (descendants n) -> In d (subtree m) -> In d (descendants n).
Proof.
  intros Hm [->|Hd]; [exact Hm|]. exact (descendants_trans n m d Hm Hd).
Qed.

Lemma subtree_trans (n m d : SyntaxNode) :
  In m (subtree n) -> In d (subtree m) -> In d (subtree n).
Proof.
  intros [->|Hm] Hd; [exact Hd|]. right.
  exact (subtree_descendants n m d Hm Hd).
Qed.

(** ** The compiler's interface, as the provider uses it *)

(** Modelled from the spec: the [Type] variant of compiler/typeInference.ts,
    which is not under src/; the provider reads [nodeType], [return],
    [module] and [name]. *)
Inductive Ty :=
| TVar (name : string)
| TUnit
| TTuple (types : list Ty)
| TRecord (fields : list (string * Ty)) (rowVar : option string)
| TFunction (params : list Ty) (return_ : Ty)
| TUnion (module_ name : string) (params : list Ty)
| TUnknown
| TInProgressBinding.

Record ISourceFile := {
  uri : string;
  tree : Tree;
  sf_isTestFile : bool;
}.

(** The methods of [TypeChecker] the provider calls. *)
Record TypeChecker := {
  findType : SyntaxNode -> Ty;
  typeToString : Ty -> string;
  getQualifierForName : ISourceFile -> string -> string -> option string;
  findImportModuleNameNodes : string -> ISourceFile -> list SyntaxNode;
}.

Record IProgram := {
  getRootPath : string;
  treeMap : list ISourceFile;      (* [getForest(true).treeMap.values()] *)
  getTypeChecker : TypeChecker;
}.

(** *** Expressions: the typed views of compiler/utils/expressionTree.ts

    An expression is a view over a syntax-tree subtree: the node itself
    with fields added, and the fields that are nodes lie below it. *)

Definition below (n : SyntaxNode) (parts : list SyntaxNode) : Prop :=
  forall p, In p parts -> In p (descendants n).

Record EValueExpr := { value_node : SyntaxNode; value_name : string }.
Record EStringConstant := { string_node : SyntaxNode }.
Record EListExpr := {
  list_node : SyntaxNode;
  exprList : list SyntaxNode;
  exprList_below : below list_node exprList;
}.
Record EFunctionCallExpr := {
  call_node : SyntaxNode;
  target : SyntaxNode;
  args : list SyntaxNode;
  args_below : below call_node args;
}.
Record ELetInExpr := {
  letin_node : SyntaxNode;
  body : SyntaxNode;
  body_below : below letin_node [body];
}.

Inductive Expression :=
| ValueExpr (e : EValueExpr)
| StringConstant (e : EStringConstant)
| ListExpr (e : EListExpr)
| FunctionCallExpr (e : EFunctionCallExpr)
| LetInExpr (e : ELetInExpr)
| OtherExpression (node : SyntaxNode) (nodeType : string).

Definition expression_node (e : Expression) : SyntaxNode :=
  match e with
  | ValueExpr e => value_node e
  | StringConstant e => string_node e
  | ListExpr e => list_node e
  | FunctionCallExpr e => call_node e
  | LetInExpr e => letin_node e
  | OtherExpression n _ => n
  end.

(** [mapSyntaxNodeToExpression] (compiler/utils/expressionTree.ts, not under
    src/) is a parameter.  What is assumed of it: an absent node has no
    expression, and the expression of a node is that node. *)
Class SyntaxAdapter := {
  mapSyntaxNodeToExpression : option SyntaxNode -> option Expression;
  map_undefined : mapSyntaxNodeToExpression None = None;
  map_node : forall n e,
    mapSyntaxNodeToExpression (Some n) = Some e -> expression_node e = n;
}.

Inductive Exception :=
| NoWorkspaceContainsError (uri : string)
| SyntaxError (text : string).

(** [JSON.parse] followed by [String]: the decoded text, or the
    [SyntaxError] that [JSON.parse] throws. *)
Class JSON := {
  JSONValue : Type;
  JSON_parse : string -> JS.completion Exception JSONValue;
  JS_String : JSONValue -> string;
}.

(** *** [TreeUtils] (util/treeUtils.ts) *)

Module TreeUtils.

(** Modelled from the spec: [TreeUtils.descendantsOfType], not under src/;
    the typed-descendant traversal of the tree API. *)
Definition descendantsOfType (node : SyntaxNode) (ty : string)
  : list SyntaxNode :=
  node_descendantsOfType node ty.

(** Modelled from the spec: [TreeUtils.findFirstNamedChildOfType], not under
    src/; the first child of the node with the given node kind. *)
Definition findFirstNamedChildOfType (ty : string) (node : SyntaxNode)
  : option SyntaxNode :=
  List.find (fun child => String.eqb (type child) ty) (children node).

(** Modelled from the spec: [TreeUtils.findAllTopLevelFunctionDeclarations],
    not under src/; the [value_declaration] children of the root, or
    [undefined] when there are none. *)
Definition findAllTopLevelFunctionDeclarations (t : Tree)
  : option (list SyntaxNode) :=
  match List.filter (fun a => String.eqb (type a) "value_declaration")
               (children (rootNode t)) with
  | [] => None
  | result => Some result
  end.

End TreeUtils.

(** ** [src/providers/findTestsProvider.ts] *)

(** [TestSuite] of the protocol; [tests] is absent on a leaf. *)
Record Position := { line : nat; character : nat }.

Inductive TestSuite := mkTestSuite {
  label : string;
  tests : option (list TestSuite);
  file : string;
  position : Position;
}.

Inductive ExprKey :=
| KValueExpr
| KStringConstant
| KListExpr
| KFunctionCallExpr
| KLetInExpr.

#[export] Instance ExprKey_eq_dec : EqDecision ExprKey.
Proof. solve_decision. Defined.

Definition ExpressionNodeTypes (k : ExprKey) : Type :=
  match k with
  | KValueExpr => EValueExpr
  | KStringConstant => EStringConstant
  | KListExpr => EListExpr
  | KFunctionCallExpr => EFunctionCallExpr
  | KLetInExpr => ELetInExpr
  end.

Definition typeByNodeType : list (ExprKey * string) :=
  [ (KValueExpr, "value_expr");
    (KStringConstant, "string_constant_expr");
    (KListExpr, "list_expr");
    (KFunctionCallExpr, "function_call_expr");
    (KLetInExpr, "let_in_expr") ].

(** [map.get(key)]. *)
Definition Map_get {V} (m : list (ExprKey * V)) (key : ExprKey) : option V :=
  option_map snd (List.find (fun kv => bool_decide (fst kv = key)) m).

Definition mapExpr (k : ExprKey) (e : Expression)
  : option (ExpressionNodeTypes k) :=
  match k return option (ExpressionNodeTypes k) with
  | KValueExpr => match e with ValueExpr v => Some v | _ => None end
  | KStringConstant => match e with StringConstant v => Some v | _ => None end
  | KListExpr => match e with ListExpr v => Some v | _ => None end
  | KFunctionCallExpr =>
      match e with FunctionCallExpr v => Some v | _ => None end
  | KLetInExpr => match e with LetInExpr v => Some v | _ => None end
  end.

(** [Utils.notUndefinedOrNull] used as a filter. *)
Definition filter_notUndefinedOrNull {A} (xs : list (option A)) : list A :=
  flat_map (fun x => match x with Some a => [a] | None => [] end) xs.

Section Provider.

Context `{SyntaxAdapter} `{JSON}.

Definition findExpr (key : ExprKey) (node : option SyntaxNode)
  : option (ExpressionNodeTypes key) :=
  match node with
  | None => None
  | Some node =>
      match Map_get typeByNodeType key with
      | None => None
      | Some ty =>
          let n := if String.eqb (type node) ty then Some node
                   else hd_error (TreeUtils.descendantsOfType node ty) in
          match mapSyntaxNodeToExpression n with
          | None => None
          | Some e => mapExpr key e
          end
      end
  end.

Definition findChildExpr (key : ExprKey) (node : option SyntaxNode)
  : option (ExpressionNodeTypes key) :=
  match node with
  | None => None
  | Some node =>
      match Map_get typeByNodeType key with
      | None => None
      | Some ty =>
          let n := if String.eqb (type node) ty then Some node
                   else TreeUtils.findFirstNamedChildOfType ty node in
          match mapSyntaxNodeToExpression n with
          | None => None
          | Some e => mapExpr key e
          end
      end
  end.

Definition findAllExprs (key : ExprKey) (node : option SyntaxNode)
  : option (list (ExpressionNodeTypes key)) :=
  match node with
  | None => None
  | Some node =>
      match Map_get typeByNodeType key with
      | None => None
      | Some ty =>
          let children := TreeUtils.descendantsOfType node ty in
          let es :=
            map (fun n => mapSyntaxNodeToExpression (Some n)) children in
          Some (flat_map
                  (fun v => match v with Some v => [v] | None => [] end)
                  (map (fun e => match e with
                                 | None => None
                                 | Some e => mapExpr key e
                                 end) es))
      end
  end.

Definition stringLiteralToLabel (literal : string)
  : JS.completion Exception string :=
  v ← JSON_parse literal; mret (JS_String v).

(** The two tests [findTestFunctionCall] makes on the type of a call. *)
Definition isFunctionReturningTest (t : Ty) : bool :=
  match t with
  | TFunction _ (TUnion m n _) =>
      String.eqb m "Test.Internal" && String.eqb n "Test"
  | _ => false
  end.

Definition isUnionTest (t : Ty) : bool :=
  match t with
  | TUnion m n _ => String.eqb m "Test.Internal" && String.eqb n "Test"
  | _ => false
  end.

(** Where the helpers look: below the node they are given. *)
Lemma mapExpr_node (key : ExprKey) (e : Expression)
    (v : ExpressionNodeTypes key) :
  mapExpr key e = Some v ->
  match key return ExpressionNodeTypes key -> Prop with
  | KValueExpr => fun v => e = ValueExpr v
  | KStringConstant => fun v => e = StringConstant v
  | KListExpr => fun v => e = ListExpr v
  | KFunctionCallExpr => fun v => e = FunctionCallExpr v
  | KLetInExpr => fun v => e = LetInExpr v
  end v.
Proof. destruct key, e; simpl; congruence. Qed.

Lemma find_In {A} (f : A -> bool) (l : list A) (x : A) :
  List.find f l = Some x -> In x l.
Proof. intros Hf. now apply find_some in Hf. Qed.

Lemma descendantsOfType_subtree (node d : SyntaxNode) (ty : string) :
  In d (TreeUtils.descendantsOfType node ty) ->
  In d (subtree node) /\ type d = ty.
Proof.
  unfold TreeUtils.descendantsOfType, node_descendantsOfType.
  rewrite filter_In, String.eqb_eq. tauto.
Qed.

Lemma hd_error_In {A} (l : list A) (x : A) : hd_error l = Some x -> In x l.
Proof. destruct l; simpl; [discriminate|]. intros [= ->]. now left. Qed.

Lemma findChildExpr_LetIn_body (node : SyntaxNode) (letIn : ELetInExpr) :
  findChildExpr KLetInExpr (Some node) = Some letIn ->
  In (body letIn) (descendants node).
Proof.
  unfold findChildExpr. simpl.
  destruct (String.eqb (type node) "let_in_expr").
  - destruct (mapSyntaxNodeToExpression (Some node)) as [e|] eqn:He;
      [|discriminate].
    intros Hm. apply (mapExpr_node KLetInExpr) in Hm. subst e.
    apply map_node in He. simpl in He. subst node.
    apply body_below. now left.
  - destruct (TreeUtils.findFirstNamedChildOfType "let_in_expr" node)
      as [c|] eqn:Hc.
    + destruct (mapSyntaxNodeToExpression (Some c)) as [e|] eqn:He;
        [|discriminate].
      intros Hm. apply (mapExpr_node KLetInExpr) in Hm. subst e.
      apply find_In in Hc. apply map_node in He. simpl in He. subst c.
      apply descendants_children. exists (letin_node letIn).
      split; [exact Hc|]. right. apply body_below. now left.
    + rewrite map_undefined. discriminate.
Qed.

(** The recursion goes into the body of a let-in, which lies below the
    node: the function is defined by well-founded recursion on the size of
    the node. *)
Equations? findTestFunctionCall (node : SyntaxNode) (typeChecker : TypeChecker)
  : option EFunctionCallExpr by wf (node_size node) lt :=
findTestFunctionCall node typeChecker
  with Logic.inspect (findChildExpr KLetInExpr (Some node)) := {
  | exist _ (Some letIn) _ => findTestFunctionCall (body letIn) typeChecker
  | exist _ None _ =>
      match findExpr KFunctionCallExpr (Some node) with
      | None => None
      | Some call =>
          let t := findType typeChecker (call_node call) in
          if isFunctionReturningTest t then Some call
          else if isUnionTest t then Some call
          else None
      end }.
Proof.
  apply node_size_descendant. now apply findChildExpr_LetIn_body.
Qed.

Definition isTestSuite (call : EFunctionCallExpr) (sourceFile : ISourceFile)
    (typeChecker : TypeChecker) : bool :=
  let funName :=
    option_map value_name (findExpr KValueExpr (Some (target call))) in
  let dot := match funName with
             | Some f => JS.lastIndexOf f "."
             | None => (-1)%Z
             end in
  let prefix := if (dot >? -1)%Z
                then option_map (fun f => JS.substring0 f dot) funName
                else None in
  let qualifier : string :=
    match prefix with
    | Some p =>
        default EmptyString (getQualifierForName typeChecker sourceFile p "describe")
    | None => EmptyString
    end in
  let moduleName : option string :=
    match prefix with
    | Some p =>
        option_map text
          (hd_error (findImportModuleNameNodes typeChecker p sourceFile))
    | None => Some "Test"
    end in
  match funName with
  | Some f => String.eqb f (qualifier +:+ "describe")
  | None => false
  end
  && match moduleName with
     | Some m => String.eqb m "Test"
     | None => false
     end.

Definition findFirstStringArg (call : EFunctionCallExpr)
    (typeChecker : TypeChecker) : option SyntaxNode :=
  List.find
    (fun arg =>
       let t := findType typeChecker arg in
       String.eqb (typeToString typeChecker t) "String")
    (args call).

(** The node of a typed view. *)
Definition node_of (key : ExprKey) : ExpressionNodeTypes key -> SyntaxNode :=
  match key with
  | KValueExpr => value_node
  | KStringConstant => string_node
  | KListExpr => list_node
  | KFunctionCallExpr => call_node
  | KLetInExpr => letin_node
  end.

Lemma mapExpr_expression_node (key : ExprKey) (e : Expression)
    (v : ExpressionNodeTypes key) :
  mapExpr key e = Some v -> node_of key v = expression_node e.
Proof. destruct key, e; simpl; congruence. Qed.

Lemma findExpr_subtree (key : ExprKey) (node : SyntaxNode)
    (v : ExpressionNodeTypes key) :
  findExpr key (Some node) = Some v -> In (node_of key v) (subtree node).
Proof.
  unfold findExpr.
  destruct (Map_get typeByNodeType key) as [ty|]; [|discriminate].
  destruct (String.eqb (type node) ty).
  - destruct (mapSyntaxNodeToExpression (Some node)) as [e|] eqn:He;
      [|discriminate].
    intros Hm. rewrite (mapExpr_expression_node _ _ _ Hm).
    rewrite (map_node _ _ He). now left.
  - destruct (hd_error (TreeUtils.descendantsOfType node ty)) as [d|] eqn:Hd.
    + destruct (mapSyntaxNodeToExpression (Some d)) as [e|] eqn:He;
        [|discriminate].
      intros Hm. rewrite (mapExpr_expression_node _ _ _ Hm).
      rewrite (map_node _ _ He).
      apply hd_error_In in Hd. now apply descendantsOfType_subtree in Hd.
    + rewrite map_undefined. discriminate.
Qed.

Lemma findTestFunctionCall_subtree (node : SyntaxNode)
    (typeChecker : TypeChecker) (call : EFunctionCallExpr) :
  findTestFunctionCall node typeChecker = Some call ->
  In (call_node call) (subtree node).
Proof.
  funelim (findTestFunctionCall node typeChecker); intros Hc.
  - right. apply subtree_descendants with (m := body letIn).
    + now apply findChildExpr_LetIn_body.
    + match goal with IH : forall c, _ -> In _ _ |- _ => now apply IH end.
  - destruct (findExpr KFunctionCallExpr (Some node)) as [c|] eqn:Hf;
      [|discriminate].
    apply (findExpr_subtree KFunctionCallExpr) in Hf. simpl in Hf.
    destruct (isFunctionReturningTest _); [now inversion Hc; subst|].
    destruct (isUnionTest _); [now inversion Hc; subst|discriminate].
Qed.

(** [xs.map(f)] for an [f] that may throw and is only applied to
    elements of [xs]. *)
Fixpoint mapM_In {E A B} (xs : list A)
  : (forall x, In x xs -> JS.completion E B) -> JS.completion E (list B) :=
  match xs with
  | [] => fun _ => JS.Return []
  | x :: rest => fun f =>
      JS.bind (f x (or_introl eq_refl)) (fun y =>
      JS.bind (mapM_In rest (fun z Hz => f z (or_intror Hz))) (fun ys =>
      JS.Return (y :: ys)))
  end.

Definition call_size (call : option EFunctionCallExpr) : nat :=
  match call with
  | None => 0
  | Some call => node_size (call_node call)
  end.

(** [testExprs?.map((e) => findTestFunctionCall(e, typeChecker))] *)
Definition testCalls (typeChecker : TypeChecker)
    (testExprs : option (list SyntaxNode))
  : list (option EFunctionCallExpr) :=
  match testExprs with
  | Some es => map (fun e => findTestFunctionCall e typeChecker) es
  | None => []
  end.

Lemma node_size_pos (n : SyntaxNode) : 0 < node_size n.
Proof. destruct n; simpl; lia. Qed.

Lemma testCalls_smaller (call : EFunctionCallExpr) (typeChecker : TypeChecker)
    (c : option EFunctionCallExpr) :
  In c (testCalls typeChecker
          (option_map exprList
             (findExpr KListExpr (nth_error (args call) 1)))) ->
  call_size c < call_size (Some call).
Proof.
  destruct (findExpr KListExpr (nth_error (args call) 1)) as [le|] eqn:Hle;
    simpl; [|tauto].
  rewrite in_map_iff. intros (e & Hc & He).
  destruct c as [c|]; simpl; [|apply node_size_pos].
  destruct (nth_error (args call) 1) as [a|] eqn:Ha; [|discriminate].
  apply node_size_descendant.
  apply subtree_descendants with (m := a).
  { apply args_below. eapply nth_error_In, Ha. }
  apply subtree_trans with (m := list_node le).
  { exact (findExpr_subtree KListExpr a le Hle). }
  right. apply subtree_descendants with (m := e).
  { now apply exprList_below. }
  now apply findTestFunctionCall_subtree in Hc.
Qed.

(** [findTestSuite] recurses into the calls found in the list that is the
    second argument of the call, all of them below the call: well-founded
    recursion on the size of the call's node.  The list is looked up before
    the label is computed (both are pure, but for the exception of
    [JSON.parse], which the label raises first as in the source); the
    lemma [findTestSuite_eq] below restates the function in the order of
    the source. *)
Equations? findTestSuite (call : option EFunctionCallExpr)
    (sourceFile : ISourceFile) (typeChecker : TypeChecker)
  : JS.completion Exception (option TestSuite)
  by wf (call_size call) lt :=
findTestSuite None sourceFile typeChecker := JS.Return None;
findTestSuite (Some call) sourceFile typeChecker
  with Logic.inspect
         (option_map exprList
            (findExpr KListExpr (nth_error (args call) 1))) := {
  | exist _ testExprs _ =>
      let stringArg := findFirstStringArg call typeChecker in
      labelParts ←
        match findAllExprs KStringConstant stringArg with
        | Some es =>
            ls ← JS.mapM stringLiteralToLabel
                   (map (fun e => text (string_node e)) es);
            JS.Return (Some ls)
        | None => JS.Return None
        end;
      let position :=
        {| line := row (startPosition (call_node call));
           character := column (startPosition (call_node call)) |} in
      let file := uri sourceFile in
      let label := match labelParts with
                   | Some [l] => Some l
                   | _ => None
                   end in
      match label with
      | Some EmptyString | None => JS.Return None
      | Some label =>
          if isTestSuite call sourceFile typeChecker then
            match testExprs with
            | Some _ =>
                tests ← mapM_In (testCalls typeChecker testExprs)
                          (fun c _ => findTestSuite c sourceFile typeChecker);
                JS.Return
                  (Some (mkTestSuite label
                           (Some (filter_notUndefinedOrNull tests))
                           file position))
            | None => JS.Return None
            end
          else JS.Return (Some (mkTestSuite label None file position))
      end }.
Proof.
  now apply (testCalls_smaller call typeChecker c).
Qed.

(** What one source file contributes before the final filter: one entry
    per top-level declaration, or the single [undefined] that [flatMap]
    keeps when the file has none. *)
Definition suitesOfFile (typeChecker : TypeChecker) (sourceFile : ISourceFile)
  : JS.completion Exception (list (option TestSuite)) :=
  match TreeUtils.findAllTopLevelFunctionDeclarations (tree sourceFile) with
  | Some tops =>
      JS.mapM
        (fun top =>
           findTestSuite (findTestFunctionCall top typeChecker)
             sourceFile typeChecker)
        tops
  | None => JS.Return [None]
  end.

Definition findAllTestSuites (program : IProgram)
  : JS.completion Exception (list TestSuite) :=
  let typeChecker := getTypeChecker program in
  found ← JS.mapM (suitesOfFile typeChecker)
            (List.filter (fun sourceFile => sf_isTestFile sourceFile)
               (treeMap program));
  JS.Return (filter_notUndefinedOrNull (concat found)).

(** *** The request handler registered by [FindTestsProvider.register] *)

Inductive LogEntry :=
| console_info (text : string)
| console_error (text : string).

(** What the handler returns to the client. *)
Inductive FindTestsResult :=
| IFindTestsResponse (suites : list TestSuite)
| ResponseError (code : Z) (message : string).

Definition onFindTestsRequest (elmWorkspaces : list IProgram)
    (projectFolder : string) : list LogEntry * FindTestsResult :=
  let requested :=
    console_info ("Finding tests is requested " +:+ projectFolder) in
  let attempt : JS.completion Exception (LogEntry * FindTestsResult) :=
    program ←
      match List.find
              (fun program => String.eqb (getRootPath program) projectFolder)
              elmWorkspaces with
      | Some program => JS.Return program
      | None => JS.Throw (NoWorkspaceContainsError projectFolder)
      end;
    suites ← findAllTestSuites program;
    JS.Return
      (console_info
         ("Found " +:+ JS.String_of_nat (length suites)
            +:+ " top test suites in " +:+ projectFolder),
       IFindTestsResponse suites) in
  match attempt with
  | JS.Return (found, response) => ([requested; found], response)
  | JS.Throw err =>
      ([requested; console_error "Error finding tests"],
       ResponseError 13 "Error finding tests")
  end.

(** The routing as the specification words it: the program whose root is
    a prefix of the target, and a failure that names the target when there
    is none. *)
Definition spec_route (elmWorkspaces : list IProgram) (target : string)
  : JS.completion Exception IProgram :=
  match List.find (fun program => JS.startsWith target (getRootPath program))
          elmWorkspaces with
  | Some program => JS.Return program
  | None => JS.Throw (NoWorkspaceContainsError target)
  end.

(** A failure that is named "workspace not found" and carries the
    offending URI. *)
Definition names_missing_workspace (r : FindTestsResult) (target : string)
  : Prop :=
  match r with
  | ResponseError _ message => JS.includes message target = true
  | IFindTestsResponse _ => False
  end.

Definition routes_as_specified : Prop :=
  forall elmWorkspaces target,
    match spec_route elmWorkspaces target with
    | JS.Return program =>
        forall suites, findAllTestSuites program = JS.Return suites ->
          snd (onFindTestsRequest elmWorkspaces target)
          = IFindTestsResponse suites
    | JS.Throw _ =>
        names_missing_workspace
          (snd (onFindTestsRequest elmWorkspaces target)) target
    end.

End Provider.

(** ** The type checker's cache *)

Module Checker.

Section TypeCache.

(** Nodes are cache keys by their stable identity; a forest holds finitely
    many of them. *)
Context {Node : Type} `{Finite Node}.
Context {Declaration : Type} `{EqDecision Declaration}.

(** The enclosing top-level declaration of a node, and the Type that
    inference over a declaration gives to a node of it
    (compiler/typeChecker.ts and typeInference.ts, not under src/). *)
Variable enclosingDeclaration : Node -> Declaration.
Variable infer : Declaration -> Node -> Ty.

Record CheckerState := {
  typeCache : gmap Node Ty;
  inferences : nat;         (* inference runs so far *)
}.

(** Modelled from the spec: the sub-nodes of a top-level declaration,
    which inference over the whole declaration visits: the nodes whose
    enclosing top-level declaration it is (compiler/typeInference.ts is not
    under src/). *)
Definition subNodes (d : Declaration) : list Node :=
  filter (fun n => enclosingDeclaration n = d) (enum Node).

(** Modelled from the spec: populating the TypeCache for every sub-node
    visited by inference over a whole declaration (compiler/typeChecker.ts
    is not under src/). *)
Definition populate (d : Declaration) (cache : gmap Node Ty) : gmap Node Ty :=
  foldr (fun n c => <[n := infer d n]> c) cache (subNodes d).

(** Modelled from the spec: [TypeChecker.findType] of
    compiler/typeChecker.ts, not under src/: check the TypeCache; on a
    miss, locate the enclosing top-level declaration, run inference over
    the whole declaration, populate the cache for every sub-node visited,
    then return the requested node's Type. *)
Definition findType (node : Node) (st : CheckerState)
  : Ty * CheckerState :=
  match typeCache st !! node with
  | Some t => (t, st)
  | None =>
      let d := enclosingDeclaration node in
      (infer d node,
       {| typeCache := populate d (typeCache st);
          inferences := S (inferences st) |})
  end.

End TypeCache.

Arguments CheckerState Node {_ _}.

End Checker.

(** ** A test module, for the examples

    [tests/ExampleTest.elm]:
<<
suite =
    describe "The suite"
        [ test "first" <| \_ -> Expect.pass ]
>>
*)

Lemma children_below (n : SyntaxNode) : below n (children n).
Proof.
  intros c Hc. apply descendants_children. exists c. now split; [|left].
Qed.

Lemma tl_children_below (n : SyntaxNode) : below n (tl (children n)).
Proof.
  intros c Hc. apply children_below.
  destruct (children n); simpl in *; [tauto | now right].
Qed.

Lemma child_below (n b : SyntaxNode) : In b (children n) -> below n [b].
Proof. intros Hb p [<-|[]]. now apply children_below. Qed.

Fixpoint last_In {A} (l : list A) : option { x | In x l } :=
  match l with
  | [] => None
  | x :: rest =>
      match last_In rest with
      | Some (exist _ y Hy) => Some (exist _ y (or_intror Hy))
      | None => Some (exist _ x (or_introl eq_refl))
      end
  end.

Module Example.

(** The adapter on the node kinds the provider asks for: a call is its
    first child applied to the rest, a let-in ends with its body, a list
    holds its children. *)
Definition expressionOf (n : SyntaxNode) : option Expression :=
  if String.eqb (type n) "value_expr" then
    Some (ValueExpr {| value_node := n; value_name := text n |})
  else if String.eqb (type n) "string_constant_expr" then
    Some (StringConstant {| string_node := n |})
  else if String.eqb (type n) "list_expr" then
    Some (ListExpr {| list_node := n; exprList := children n;
                      exprList_below := children_below n |})
  else if String.eqb (type n) "function_call_expr" then
    match hd_error (children n) with
    | Some t =>
        Some (FunctionCallExpr
                {| call_node := n; target := t; args := tl (children n);
                   args_below := tl_children_below n |})
    | None => None
    end
  else if String.eqb (type n) "let_in_expr" then
    match last_In (children n) with
    | Some (exist _ b Hb) =>
        Some (LetInExpr {| letin_node := n; body := b;
                           body_below := child_below n b Hb |})
    | None => None
    end
  else Some (OtherExpression n (type n)).

#[global, refine] Instance adapter : SyntaxAdapter :=
  {| mapSyntaxNodeToExpression := fun n =>
       match n with Some n => expressionOf n | None => None end |}.
Proof.
  - reflexivity.
  - intros n e. unfold expressionOf.
    repeat (destruct (String.eqb (type n) _);
            [try (intros [= <-]; reflexivity)|]).
    + destruct (hd_error (children n)); [|discriminate]. now intros [= <-].
    + destruct (last_In (children n)) as [[b Hb]|]; [|discriminate].
      now intros [= <-].
    + now intros [= <-].
Defined.

Definition quote : string := String (ascii_of_nat 34) EmptyString.

(** [JSON.parse] on a string literal without escapes; everything else is
    rejected with a [SyntaxError]. *)
Definition parseStringLiteral (literal : string)
  : JS.completion Exception string :=
  match list_ascii_of_string literal with
  | q :: rest =>
      match rev rest with
      | q' :: inner =>
          if Ascii.eqb q (ascii_of_nat 34) && Ascii.eqb q' (ascii_of_nat 34)
             && forallb (fun c => negb (Ascii.eqb c (ascii_of_nat 34))
                                  && negb (Ascii.eqb c (ascii_of_nat 92)))
                  inner
          then JS.Return (string_of_list_ascii (rev inner))
          else JS.Throw (SyntaxError literal)
      | [] => JS.Throw (SyntaxError literal)
      end
  | [] => JS.Throw (SyntaxError literal)
  end.

#[global] Instance json : JSON :=
  {| JSONValue := string; JSON_parse := parseStringLiteral;
     JS_String := fun v => v |}.

Definition node (i : nat) (ty tx : string) (r c : nat)
    (cs : list SyntaxNode) : SyntaxNode :=
  mkSyntaxNode i ty tx {| row := r; column := c |} cs.

Definition firstLabel : SyntaxNode :=
  node 9 "string_constant_expr" (quote +:+ "first" +:+ quote) 5 15 [].

Definition testCall : SyntaxNode :=
  node 7 "function_call_expr" "test" 5 10
    [ node 8 "value_expr" "test" 5 10 []; firstLabel ].

Definition lambda : SyntaxNode :=
  node 10 "anonymous_function_expr" "\_ -> Expect.pass" 5 26 [].

Definition suiteLabel : SyntaxNode :=
  node 5 "string_constant_expr" (quote +:+ "The suite" +:+ quote) 4 13 [].

Definition testList : SyntaxNode :=
  node 6 "list_expr" "[ ... ]" 5 8
    [ node 11 "bin_op_expr" "test ... <| ..." 5 10
        [ testCall; node 12 "operator" "<|" 5 23 []; lambda ] ].

Definition describeCall : SyntaxNode :=
  node 3 "function_call_expr" "describe ..." 4 4
    [ node 4 "value_expr" "describe" 4 4 []; suiteLabel; testList ].

Definition suiteDeclaration : SyntaxNode :=
  node 1 "value_declaration" "suite = ..." 3 0
    [ node 2 "function_declaration_left" "suite" 3 0 []; describeCall ].

Definition exampleTree : Tree :=
  {| rootNode := node 0 "file" "..." 0 0 [ suiteDeclaration ] |}.

Definition TString : Ty := TUnion "String" "String" [].
Definition TTest : Ty := TUnion "Test.Internal" "Test" [].
Definition TExpectation : Ty := TUnion "Expect" "Expectation" [].

(** The types inference gives to the nodes of the module. *)
Definition typeOf (n : SyntaxNode) : Ty :=
  match id n with
  | 3 => TTest
  | 5 | 9 => TString
  | 6 => TUnion "List" "List" [TTest]
  | 7 => TFunction [TFunction [TUnit] TExpectation] TTest
  | 10 => TFunction [TVar "a"] TExpectation
  | 11 => TTest
  | _ => TUnknown
  end.

Definition render (t : Ty) : string :=
  match t with
  | TUnion _ name [] => name
  | TUnit => "()"
  | TVar name => name
  | _ => "..."
  end.

Definition typeChecker : TypeChecker :=
  {| findType := typeOf;
     typeToString := render;
     getQualifierForName := fun _ _ _ => None;
     findImportModuleNameNodes := fun _ _ => [] |}.

Definition testFile : ISourceFile :=
  {| uri := "file:///ws/tests/ExampleTest.elm"; tree := exampleTree;
     sf_isTestFile := true |}.

(** The same module outside [tests/]. *)
Definition sourceFile : ISourceFile :=
  {| uri := "file:///ws/src/Example.elm"; tree := exampleTree;
     sf_isTestFile := false |}.

Definition program : IProgram :=
  {| getRootPath := "file:///ws"; treeMap := [sourceFile; testFile];
     getTypeChecker := typeChecker |}.

(** The [describe] call as the adapter presents it. *)
Definition describeExpr : EFunctionCallExpr :=
  {| call_node := describeCall;
     target := node 4 "value_expr" "describe" 4 4 [];
     args := tl (children describeCall);
     args_below := tl_children_below describeCall |}.

Definition firstSuite : TestSuite :=
  mkTestSuite "first" None "file:///ws/tests/ExampleTest.elm"
    {| line := 5; character := 10 |}.

Definition theSuite : TestSuite :=
  mkTestSuite "The suite" (Some [firstSuite])
    "file:///ws/tests/ExampleTest.elm" {| line := 4; character := 4 |}.

End Example.

(** ** Vocabulary of the properties *)



Module ExecExample.

Definition options : IExecCmdOptions :=
  {| cmdArguments := Some ["--version"]; showMessageOnError := false;
     onStart := None; onStdout := None; onStderr := None;
     onExit := None; notFoundText := None |}.


(** [onExit: () => handle.kill()] *)
Definition killingOnExit : IExecCmdOptions :=
  {| cmdArguments := Some ["--version"]; showMessageOnError := false;
     onStart := None; onStdout := None; onStderr := None;
     onExit := Some (fun _ => 1); notFoundText := None |}.

Definition env : ExecEnv :=
  {| isWindows := false; hasStdout := true; hasStderr := true |}.

Definition notFound : ExecException :=
  {| message := "Command failed: elm --version"; code := Some 127%Z |}.

End ExecExample.

(** The type of a test: the union [Test.Internal.Test], or a function
    returning it. *)
Definition isTestType (t : Ty) : Prop :=
  (exists params, t = TUnion "Test.Internal" "Test" params)
  \/ (exists params ret,
        t = TFunction params (TUnion "Test.Internal" "Test" ret)).

Definition containsNoFunctionCall (node : SyntaxNode) : Prop :=
  forall d, In d (subtree node) -> type d <> "function_call_expr".

(** The files named by a suite and the suites nested in it. *)
Fixpoint suiteFiles (s : TestSuite) : list string :=
  match s with
  | mkTestSuite _ ts f _ =>
      f :: match ts with
           | Some l => flat_map suiteFiles l
           | None => []
           end
  end.

Module CacheExample.

(** The nodes of two top-level declarations, named by their ids: the
    example module's [suite] (ids 1 to 12) and a second declaration
    [helper = ()] (ids 13 and 14).  Node [i] of the model has the id
    [i + 1]; a declaration is named by the id of its node. *)
Definition nodeId (n : fin 14) : nat := S (fin_to_nat n).

Definition enclosingDeclaration (n : fin 14) : nat :=
  if Nat.leb (nodeId n) 12 then 1 else 13.

Definition infer (d : nat) (n : fin 14) : Ty :=
  match List.find (fun m => Nat.eqb (id m) (nodeId n))
          (subtree Example.suiteDeclaration) with
  | Some m => Example.typeOf m
  | None => TUnit
  end.

Definition fresh : Checker.CheckerState (fin 14) :=
  {| Checker.typeCache := ∅; Checker.inferences := 0 |}.

(** The [describe] call, whose id is 3. *)
Definition describeCall : fin 14 := 2%fin.

End CacheExample.

(** ** More of the JavaScript string library *)

Module JSText.

Definition newline : ascii := ascii_of_nat 10.

(** [s.indexOf(c)] for a one-character search string: the index of the
    first occurrence, [-1] when there is none. *)
Fixpoint indexOf_from (i : Z) (s : string) (c : ascii) : Z :=
  match s with
  | EmptyString => (-1)%Z
  | String a rest =>
      if Ascii.eqb a c then i else indexOf_from (i + 1) rest c
  end.

Definition indexOf (s : string) (c : ascii) : Z := indexOf_from 0 s c.

(** [s.substring(start, end)]: both indices are clamped to the string, and
    swapped when [start] is the larger. *)
Definition substring (s : string) (start end_ : Z) : string :=
  let len := Z.of_nat (String.length s) in
  let clamp := fun x => Z.min (Z.max x 0) len in
  let from := Z.min (clamp start) (clamp end_) in
  let to := Z.max (clamp start) (clamp end_) in
  String.substring (Z.to_nat from) (Z.to_nat (to - from)) s.

(** The white space and line terminators [trim] removes, among the code
    units below 256: TAB, LF, VT, FF, CR, SP, NBSP. *)
Definition isWhiteSpace (c : ascii) : bool :=
  match nat_of_ascii c with
  | 9 | 10 | 11 | 12 | 13 | 32 | 160 => true
  | _ => false
  end.

Fixpoint trimStart (s : string) : string :=
  match s with
  | EmptyString => EmptyString
  | String a rest => if isWhiteSpace a then trimStart rest else s
  end.

Definition reverse (s : string) : string :=
  string_of_list_ascii (rev (list_ascii_of_string s)).

Definition trimEnd (s : string) : string := reverse (trimStart (reverse s)).

Definition trim (s : string) : string := trimEnd (trimStart s).

End JSText.

(** *** [getElmVersion] *)

(** What awaiting a promise gives: its settlement, or nothing while it is
    pending. *)
Inductive Awaited (A : Type) :=
| Settled (result : JS.completion ExecException A)
| Unsettled.
Arguments Settled {A} result.
Arguments Unsettled {A}.

Definition getElmVersion_options : IExecCmdOptions :=
  {| cmdArguments := Some ["--version"];
     showMessageOnError := false;
     onStart := None; onStdout := None; onStderr := None; onExit := None;
     notFoundText :=
       Some "Elm binary not found, did you install and setup the path to your binary?" |}.

(** The first line of the output, trimmed. *)
Definition versionOf (stdout : string) : string :=
  JSText.trim
    (JSText.substring stdout 0 (JSText.indexOf stdout JSText.newline)).

(** What the child writes before it exits: a chunk of [stdout] or of
    [stderr]. *)
Inductive Chunk :=
| ToStdout (data : string)
| ToStderr (data : string).

Definition written (chunk : Chunk) : Action :=
  match chunk with
  | ToStdout data => StdoutData data
  | ToStderr data => StderrData data
  end.

(** [getElmVersion] on one run of [settings.elmPath --version]: the version
    and the line it logs, or the rejection of the promise it awaits; nothing
    while that promise is pending.  The handle of [execCmd] stays inside
    [getElmVersion], so the events of the run are the data the child writes
    and its exit. *)
Definition getElmVersion (elmPath : string) (env : ExecEnv)
    (chunks : list Chunk) (error : option ExecException)
    (stdout stderr : string) : Awaited (LogEntry * string) :=
  match promise (run elmPath getElmVersion_options env
                   (map written chunks) error stdout stderr []) with
  | Fulfilled out _ =>
      let version := versionOf out in
      Settled (JS.Return
                 (console_info ("Elm version " +:+ version +:+ " detected."),
                  version))
  | Rejected e => Settled (JS.Throw e)
  | Pending => Unsettled
  end.

(** *** Vocabulary for the callbacks of [execCmd] *)

(** The callbacks that tell the caller the process is talking. *)
Definition isDataCall (e : Effect) : bool :=
  match e with
  | CallOnStart | CallOnStdout _ | CallOnStderr _ => true
  | _ => false
  end.

Definition isOutputCall (e : Effect) : bool :=
  match e with
  | CallOnStdout _ | CallOnStderr _ => true
  | _ => false
  end.

(** What one event appends to the effects. *)
Definition emitted (cmd : string) (options : IExecCmdOptions) (env : ExecEnv)
    (st : ExecutingCmd) (ev : Event) : list Effect :=
  let onData listener called :=
    let started :=
      if firstResponse st
      then callEffects env (onStart options) CallOnStart (effects st)
      else [] in
    started ++ callEffects env listener called (effects st ++ started) in
  match ev with
  | Act (StdoutData data) =>
      if hasStdout env
      then onData (onStdout options) (CallOnStdout data) else []
  | Act (StderrData data) =>
      if hasStdout env && hasStderr env
      then onData (onStderr options) (CallOnStderr data) else []
  | Act Kill => [killEffect env]
  | Exit error _ _ =>
      let exited := callEffects env (onExit options) CallOnExit (effects st) in
      exited
      ++ (if wasKilledByUs st || existsb isKillCall exited then []
          else match error with
               | Some err =>
                   if showMessageOnError options
                   then [ShowErrorMessage (errorMessage cmd options env err)]
                   else []
               | None => []
               end)
  end.



(** Reading a list of effects from the left: every [onStdout] and
    [onStderr] comes after [onStart]. *)
Fixpoint outputsStarted (started : bool) (l : list Effect) : bool :=
  match l with
  | [] => true
  | CallOnStart :: rest => outputsStarted true rest
  | e :: rest =>
      (negb (isOutputCall e) || started) && outputsStarted started rest
  end.

Definition isStartCall (e : Effect) : bool :=
  match e with CallOnStart => true | _ => false end.

Definition isExitCall (e : Effect) : bool :=
  match e with CallOnExit => true | _ => false end.

Definition isShowErrorMessage (e : Effect) : bool :=
  match e with ShowErrorMessage _ => true | _ => false end.

Module CallbackExample.

(** A caller that listens to everything. *)
Definition listening : IExecCmdOptions :=
  {| cmdArguments := Some ["--version"]; showMessageOnError := false;
     onStart := Some (fun _ => 0); onStdout := Some (fun _ => 0);
     onStderr := Some (fun _ => 0); onExit := Some (fun _ => 0);
     notFoundText := None |}.

Definition events : list Event :=
  [Act (StdoutData "0.19"); Act (StderrData "warning");
   Exit None "0.19" "warning"].

End CallbackExample.

(** A suite and the suites nested in it, at any depth. *)
Fixpoint subSuites (s : TestSuite) : list TestSuite :=
  match s with
  | mkTestSuite _ ts _ _ =>
      s :: match ts with
           | Some l => flat_map subSuites l
           | None => []
           end
  end.

Module BadLiteralExample.

(** [tests/Escapes.elm]: a label with an Elm escape that JSON does not
    have.
<<
suite =
    describe "smile \u{1F600}" []
>>
*)
Definition label : SyntaxNode :=
  Example.node 5 "string_constant_expr"
    (Example.quote +:+ "smile \u{1F600}" +:+ Example.quote) 4 13 [].

Definition describeCall : SyntaxNode :=
  Example.node 3 "function_call_expr" "describe ..." 4 4
    [ Example.node 4 "value_expr" "describe" 4 4 []; label;
      Example.node 6 "list_expr" "[]" 4 30 [] ].

Definition declaration : SyntaxNode :=
  Example.node 1 "value_declaration" "suite = ..." 3 0
    [ Example.node 2 "function_declaration_left" "suite" 3 0 [];
      describeCall ].

Definition testFile : ISourceFile :=
  {| uri := "file:///ws/tests/Escapes.elm";
     tree := {| rootNode := Example.node 0 "file" "..." 0 0 [declaration] |};
     sf_isTestFile := true |}.

Definition describeExpr : EFunctionCallExpr :=
  {| call_node := describeCall;
     target := Example.node 4 "value_expr" "describe" 4 4 [];
     args := tl (children describeCall);
     args_below := tl_children_below describeCall |}.

(** The example module together with the file above. *)
Definition program : IProgram :=
  {| getRootPath := "file:///ws";
     treeMap := [Example.testFile; testFile];
     getTypeChecker := Example.typeChecker |}.

End BadLiteralExample.

Module QualifiedExample.

(** [T.describe "suite" []] under [import Test as T]. *)
Definition targetNode : SyntaxNode :=
  Example.node 4 "value_expr" "T.describe" 4 4 [].

Definition callNode : SyntaxNode :=
  Example.node 3 "function_call_expr" "T.describe ..." 4 4
    [ targetNode;
      Example.node 5 "string_constant_expr"
        (Example.quote +:+ "suite" +:+ Example.quote) 4 15 [];
      Example.node 6 "list_expr" "[]" 4 23 [] ].

Definition call : EFunctionCallExpr :=
  {| call_node := callNode; target := targetNode;
     args := tl (children callNode);
     args_below := tl_children_below callNode |}.

Definition importNode : SyntaxNode :=
  Example.node 20 "upper_case_qid" "Test" 1 7 [].

Definition typeChecker : TypeChecker :=
  {| findType := Example.typeOf;
     typeToString := Example.render;
     getQualifierForName := fun _ prefix _ =>
       if String.eqb prefix "T" then Some "T." else None;
     findImportModuleNameNodes := fun prefix _ =>
       if String.eqb prefix "T" then [importNode] else [] |}.

End QualifiedExample.

(** ** [findDepVersion] and the comparison of versions *)

(** JavaScript numbers, as [cmp] uses them: the conversion of a string (or
    of [undefined]) to a number, the test for [NaN] and the comparison [>],
    which is false as soon as one side is [NaN] and orders the other
    numbers. *)
Class JSNumber := {
  number : Type;
  Number : option string -> number;
  isNaN : number -> bool;
  gt : number -> number -> bool;
  gt_not_NaN : forall a b,
    gt a b = true -> isNaN a = false /\ isNaN b = false;
  gt_asym : forall a b, gt a b = true -> gt b a = false;
  gt_cotrans : forall a b c,
    gt a c = true -> isNaN b = false -> gt a b = true \/ gt b c = true;
}.

Record VersionFolder := { version : string; versionPath : string }.

Module Regex.

(** [\d] *)
Definition isDigit (c : ascii) : bool :=
  Nat.leb 48 (nat_of_ascii c) && Nat.leb (nat_of_ascii c) 57.

(** [\d*], greedy: the digits at the front of the text, and the rest. *)
Fixpoint spanDigits (s : string) : string * string :=
  match s with
  | EmptyString => (EmptyString, EmptyString)
  | String c rest =>
      if isDigit c
      then let '(d, r) := spanDigits rest in (String c d, r)
      else (EmptyString, s)
  end.

(** [\d+].  What follows it in the pattern ([\.], a space or the end of the
    line) never matches a digit, so giving digits back cannot help and the
    greedy match is the only candidate. *)
Definition digits (s : string) : option (string * string) :=
  match spanDigits s with
  | (EmptyString, _) => None
  | (d, r) => Some (d, r)
  end.

Fixpoint drop (n : nat) (s : string) : string :=
  match n, s with
  | S n, String _ rest => drop n rest
  | _, _ => s
  end.

(** A literal of the pattern. *)
Definition literal (lit s : string) : option string :=
  if String.prefix lit s then Some (drop (String.length lit) s) else None.

(** [(\d+\.\d+\.\d+)]: the text captured, and the rest. *)
Definition semver (s : string) : option (string * string) :=
  '(a, r) ← digits s;
  r ← literal "." r;
  '(b, r) ← digits r;
  r ← literal "." r;
  '(c, r) ← digits r;
  Some (a +:+ "." +:+ b +:+ "." +:+ c, r).

(** [(<|<=)] followed by the rest of the pattern [k]: the first alternative
    is tried first, the second when the rest fails after it. *)
Definition operator {A} (s : string) (k : string -> string -> option A)
  : option A :=
  match r ← literal "<" s; k "<" r with
  | Some m => Some m
  | None => r ← literal "<=" s; k "<=" r
  end.

(** The pattern between [^] and [$], on one line. *)
Definition matchLine (line : string)
  : option (string * string * string * string) :=
  '(lower, r) ← semver line;
  r ← literal " " r;
  operator r (fun lowerOperator r =>
    r ← literal " v " r;
    operator r (fun upperOperator r =>
      r ← literal " " r;
      '(upper, r) ← semver r;
      match r with
      | EmptyString => Some (lower, lowerOperator, upperOperator, upper)
      | _ => None
      end)).

(** The line terminators among the code units below 256. *)
Definition isLineTerminator (c : ascii) : bool :=
  Nat.eqb (nat_of_ascii c) 10 || Nat.eqb (nat_of_ascii c) 13.

Fixpoint lines_from (cur : string) (s : string) : list string :=
  match s with
  | EmptyString => [cur]
  | String c rest =>
      if isLineTerminator c then cur :: lines_from EmptyString rest
      else lines_from (cur +:+ String c EmptyString) rest
  end.

Definition lines (s : string) : list string := lines_from EmptyString s.

Fixpoint firstMatch {A B} (f : A -> option B) (l : list A) : option B :=
  match l with
  | [] => None
  | x :: rest =>
      match f x with
      | Some m => Some m
      | None => firstMatch f rest
      end
  end.

(** [/^(\d+\.\d+\.\d+) (<|<=) v (<|<=) (\d+\.\d+\.\d+)$/gm.exec(text)] on a
    fresh expression: with the [m] flag [^] and [$] are the ends of a line,
    and the pattern matches no line terminator, so the match is the first
    line that matches as a whole.  The result is the four groups. *)
Definition exec (text : string)
  : option (string * string * string * string) :=
  firstMatch matchLine (lines text).

End Regex.

(** [array.sort(compare)]: the sort is stable (ECMAScript 2019; the package
    asks for Node 12.9 or later), so for a consistent comparison the result
    is the one insertion gives. *)
Fixpoint Array_insert {A} (compare : A -> A -> Z) (x : A) (l : list A)
  : list A :=
  match l with
  | [] => [x]
  | y :: rest =>
      if (compare x y >? 0)%Z then y :: Array_insert compare x rest
      else x :: y :: rest
  end.

Definition Array_sort {A} (compare : A -> A -> Z) (l : list A) : list A :=
  fold_right (Array_insert compare) [] l.

Section FindDepVersion.

Context `{JSNumber}.

(** One round of the loop of [cmp]: the value returned, or nothing when
    the loop goes on. *)
Definition cmpComponent (na nb : number) : option Z :=
  if gt na nb then Some 1%Z
  else if gt nb na then Some (-1)%Z
  else if negb (isNaN na) && isNaN nb then Some 1%Z
  else if isNaN na && negb (isNaN nb) then Some (-1)%Z
  else None.

Fixpoint cmp_loop (pa pb : list string) (indices : list nat) : Z :=
  match indices with
  | [] => 0%Z
  | i :: rest =>
      match cmpComponent (Number (nth_error pa i))
                         (Number (nth_error pb i)) with
      | Some r => r
      | None => cmp_loop pa pb rest
      end
  end.

Definition cmp (a b : string) : Z :=
  let pa := JS.split a "." in
  let pb := JS.split b "." in
  cmp_loop pa pb [0; 1; 2].

(** [filterSemver]: a boolean for the two operators, [undefined] for any
    other. *)
Definition filterSemver (lower upper operator : string) : option bool :=
  let currentCompare := cmp lower upper in
  if String.eqb operator "<=" then
    if (currentCompare =? -1)%Z then Some false else Some true
  else if String.eqb operator "<" then
    if (currentCompare =? -1)%Z || (currentCompare =? 0)%Z
    then Some false else Some true
  else None.

(** [filter] keeps an element when the callback's value is truthy. *)
Definition truthy (v : option bool) : bool := default false v.

Definition findDepVersion (allVersionFolders : list VersionFolder)
    (versionRange : string) : option VersionFolder :=
  match Regex.exec versionRange with
  | Some (lowerRange, lowerOperator, upperOperator, upperRange) =>
      let filteredVersionList :=
        List.filter
          (fun a => truthy (filterSemver upperRange (version a) upperOperator))
          (List.filter
             (fun a =>
                truthy (filterSemver (version a) lowerRange lowerOperator))
             allVersionFolders) in
      let latestVersionInRange :=
        hd_error (rev (Array_sort cmp (map version filteredVersionList))) in
      List.find
        (fun a =>
           match latestVersionInRange with
           | Some latest => String.eqb (version a) latest
           | None => false
           end)
        allVersionFolders
  | None =>
      List.find (fun it => JS.includes versionRange (version it))
        allVersionFolders
  end.

(** A version that satisfies both filters of a range. *)
Definition inRange (lowerRange lowerOperator upperOperator upperRange : string)
    (v : string) : Prop :=
  filterSemver v lowerRange lowerOperator = Some true
  /\ filterSemver upperRange v upperOperator = Some true.

End FindDepVersion.

(** The order [cmp] puts on the numbers of a component: [NaN] below every
    number, the numbers by [>]. *)
Definition ltb `{JSNumber} (x y : number) : bool :=
  gt y x || (isNaN x && negb (isNaN y)).


(** A text made of decimal digits, at least one. *)
Definition isDigits (d : string) : Prop :=
  d <> EmptyString
  /\ forallb Regex.isDigit (list_ascii_of_string d) = true.

Module DecimalExample.

(** The value of a text of decimal digits. *)
Definition valueOf (d : string) : N :=
  fold_left (fun acc c => (acc * 10 + N.of_nat (nat_of_ascii c - 48))%N)
    (list_ascii_of_string d) 0%N.

(** [Number] on the texts of decimal digits and on the empty text; the
    other texts, some of which JavaScript reads as numbers too, and
    [undefined] are [NaN] here.  The numbers are exact: the instance serves
    the examples, whose components are small. *)
Definition toNumber (x : option string) : option N :=
  match x with
  | Some s =>
      if forallb Regex.isDigit (list_ascii_of_string s)
      then Some (valueOf s) else None
  | None => None
  end.

Definition greater (a b : option N) : bool :=
  match a, b with
  | Some x, Some y => N.ltb y x
  | _, _ => false
  end.

#[global, refine] Instance decimal : JSNumber :=
  {| number := option N;
     Number := toNumber;
     isNaN := fun a => match a with Some _ => false | None => true end;
     gt := greater |}.
Proof.
  - intros [x|] [y|]; simpl; intros Hg; try discriminate. now split.
  - intros [x|] [y|]; simpl; intros Hg; try reflexivity.
    apply N.ltb_lt in Hg. apply N.ltb_ge. lia.
  - intros [x|] [y|] [z|]; simpl; intros Hg Hn; try discriminate.
    apply N.ltb_lt in Hg. rewrite !N.ltb_lt. lia.
Defined.

Definition folders : list VersionFolder :=
  [ {| version := "1.0.5"; versionPath := "/elm/core/1.0.5" |};
    {| version := "1.0.10"; versionPath := "/elm/core/1.0.10" |};
    {| version := "2.0.0"; versionPath := "/elm/core/2.0.0" |} ].

End DecimalExample.

(** What may follow [\d+]: the end of the text, or no digit. *)
Definition startsWithoutDigit (s : string) : Prop :=
  match s with
  | EmptyString => True
  | String c _ => Regex.isDigit c = false
  end.

(** * Properties *)

(** ** [isTestFile] *)

(** The text relation behind [startsWith]. *)
Lemma startsWith_app (s p : string) :
  JS.startsWith s p = true <-> exists rest, s = p +:+ rest.
Proof.
  unfold JS.startsWith. revert s.
  induction p as [|c p IH]; intros [|d s]; simpl.
  - split; [intros _; now exists "" | reflexivity].
  - split; [intros _; now exists (String d s) | reflexivity].
  - split; [discriminate | intros [rest Hr]; discriminate].
  - destruct (ascii_dec c d) as [->|Hne].
    + rewrite IH. split; intros [rest Hr]; exists rest.
      * now rewrite Hr.
      * now inversion Hr.
    + split; [discriminate | intros [rest Hr]; inversion Hr; congruence].
Qed.

(** C2: [isTestFile filename rootPath] is true exactly when [filename], as
    text, begins with the path obtained by joining [rootPath] with [tests];
    this holds for either implementation of [path.join]. *)
Theorem isTestFile_iff_prefix `{Path} (filename rootPath : string) :
  isTestFile filename rootPath = true <->
  exists rest, filename = path_join rootPath "tests" +:+ rest.
Proof.
  unfold isTestFile. rewrite <- startsWith_app.
  destruct (JS.startsWith filename (path_join rootPath "tests")); intuition congruence.
Qed.

Example isTestFile_tests :
  @isTestFile Posix.path "/ws/tests/Example.elm" "/ws" = true.
Proof. reflexivity. Qed.

Example isTestFile_src :
  @isTestFile Posix.path "/ws/src/Main.elm" "/ws" = false.
Proof. reflexivity. Qed.

Example isTestFile_trailing_slash :
  @path_join Posix.path "/ws/" "tests" = "/ws/tests" /\
  @isTestFile Posix.path "/ws/tests/Example.elm" "/ws/" = true.
Proof. split; reflexivity. Qed.

Example isTestFile_text_prefix :
  @isTestFile Posix.path "/ws/tests-backup/Old.elm" "/ws" = true.
Proof. reflexivity. Qed.

(** *** [path.join] on POSIX for a normalised root

    On a root that [normalize] leaves unchanged and that does not end in a
    separator (an absolute or relative path, other than [.]), joining with
    [tests] appends [/tests]. *)

Lemma append_assoc (a b c : string) : (a +:+ b) +:+ c = a +:+ (b +:+ c).
Proof.
  induction a as [|x a IH]; [reflexivity|].
  change (String x ((a +:+ b) +:+ c) = String x (a +:+ (b +:+ c))).
  now f_equal.
Qed.

Lemma list_ascii_of_string_app (a b : string) :
  list_ascii_of_string (a +:+ b)
  = list_ascii_of_string a ++ list_ascii_of_string b.
Proof.
  induction a as [|x a IH]; [reflexivity|].
  change (x :: list_ascii_of_string (a +:+ b)
          = x :: (list_ascii_of_string a ++ list_ascii_of_string b)).
  now f_equal.
Qed.

Lemma split_from_app (cur p r : string) (sep : ascii) :
  JS.split_from cur (p +:+ String sep r) sep
  = JS.split_from cur p sep ++ JS.split_from EmptyString r sep.
Proof.
  revert cur. induction p as [|a p IH]; intros cur; simpl.
  - now rewrite Ascii.eqb_refl.
  - destruct (Ascii.eqb a sep); simpl; now rewrite IH.
Qed.

Lemma join_snoc (l : list string) (x sep : string) :
  l <> [] -> JS.join (l ++ [x]) sep = JS.join l sep +:+ sep +:+ x.
Proof.
  induction l as [|a l IH]; [congruence|]. intros _.
  destruct l as [|b l]; [reflexivity|].
  change (JS.join ((a :: b :: l) ++ [x]) sep)
    with (a +:+ sep +:+ JS.join ((b :: l) ++ [x]) sep).
  rewrite IH by discriminate.
  change (JS.join (a :: b :: l) sep) with (a +:+ sep +:+ JS.join (b :: l) sep).
  now rewrite !append_assoc.
Qed.

Lemma normalizeString_tests (p : string) (allowAboveRoot : bool) :
  Posix.normalizeString p allowAboveRoot <> EmptyString ->
  Posix.normalizeString (p +:+ "/tests") allowAboveRoot
  = Posix.normalizeString p allowAboveRoot +:+ "/tests".
Proof.
  unfold Posix.normalizeString, JS.split. intros Hq.
  change (p +:+ "/tests") with (p +:+ String "/" "tests").
  rewrite split_from_app, fold_left_app.
  change (JS.split_from EmptyString "tests" "/") with ["tests"].
  cbn [fold_left]. unfold Posix.pushSegment at 1. cbn [String.eqb Ascii.eqb
    Bool.eqb orb]. cbn [rev].
  rewrite join_snoc; [reflexivity|].
  intros Hnil. apply Hq. now rewrite Hnil.
Qed.

Lemma endsWithSlash_tests (p : string) :
  Posix.endsWithSlash (p +:+ "/tests") = false.
Proof.
  unfold Posix.endsWithSlash.
  rewrite list_ascii_of_string_app, rev_app_distr. reflexivity.
Qed.

Lemma posix_join_tests (rootPath : string) :
  Posix.normalize rootPath = rootPath ->
  rootPath <> "." ->
  Posix.endsWithSlash rootPath = false ->
  Posix.join rootPath "tests" = rootPath +:+ "/tests".
Proof.
  intros Hnorm Hdot Hslash.
  destruct rootPath as [|c rest] eqn:Hp; [discriminate Hnorm|].
  rewrite <- Hp in *.
  assert (Hjoin : Posix.join rootPath "tests"
                  = Posix.normalize (rootPath +:+ "/tests")).
  { rewrite Hp. reflexivity. }
  rewrite Hjoin. clear Hjoin.
  assert (Habs : JS.startsWith (rootPath +:+ "/tests") "/"
                 = JS.startsWith rootPath "/").
  { rewrite Hp. unfold JS.startsWith.
    change (String c rest +:+ "/tests") with (String c (rest +:+ "/tests")).
    cbn [String.prefix]. destruct (ascii_dec "/" c); [|reflexivity].
    now destruct rest. }
  unfold Posix.normalize in *.
  rewrite Habs, endsWithSlash_tests.
  replace (String.eqb rootPath EmptyString) with false in Hnorm
    by (now rewrite Hp).
  replace (String.eqb (rootPath +:+ "/tests") EmptyString) with false
    by (now rewrite Hp).
  rewrite Hslash in Hnorm.
  set (q := Posix.normalizeString rootPath
              (negb (JS.startsWith rootPath "/"))) in *.
  destruct (String.eqb_spec q EmptyString) as [Hq|Hq].
  - destruct (JS.startsWith rootPath "/").
    + rewrite <- Hnorm in Hslash. discriminate.
    + congruence.
  - rewrite normalizeString_tests by exact Hq. fold q.
    assert (Hne : String.eqb (q +:+ "/tests") EmptyString = false).
    { destruct q; [congruence | reflexivity]. }
    rewrite Hne. clearbody q.
    destruct (JS.startsWith rootPath "/"); rewrite <- Hnorm; reflexivity.
Qed.

(** On POSIX, for such a root, a test file is a file whose name begins
    with [<root>/tests]. *)
Corollary isTestFile_posix (filename rootPath : string) :
  Posix.normalize rootPath = rootPath ->
  rootPath <> "." ->
  Posix.endsWithSlash rootPath = false ->
  @isTestFile Posix.path filename rootPath = true <->
  exists rest, filename = rootPath +:+ "/tests" +:+ rest.
Proof.
  intros Hnorm Hdot Hslash. rewrite isTestFile_iff_prefix. simpl.
  rewrite (posix_join_tests _ Hnorm Hdot Hslash).
  split; intros [rest ->]; exists rest; now rewrite append_assoc.
Qed.

Example isTestFile_posix_ws (filename : string) :
  @isTestFile Posix.path filename "/ws" = true <->
  exists rest, filename = "/ws/tests" +:+ rest.
Proof. now apply (isTestFile_posix filename "/ws"). Qed.

(** ** [execCmd] *)

Section ExecCmdProperties.

Variable cmd : string.
Variable options : IExecCmdOptions.
Variable env : ExecEnv.

Local Abbreviation step := (step cmd options env).
Local Abbreviation run := (run cmd options env).

(** *** What [kill()] and a callback do to the state *)

Lemma isKillCall_killEffect : isKillCall (killEffect env) = true.
Proof. unfold killEffect. now destruct (isWindows env). Qed.

Lemma existsb_kills (n : nat) :
  existsb isKillCall (repeat (killEffect env) n) = negb (Nat.eqb n 0).
Proof.
  destruct n as [|n]; [reflexivity|]. simpl.
  now rewrite isKillCall_killEffect.
Qed.

Lemma killProcess_state (st : ExecutingCmd) :
  killProcess env st
  = {| isRunning := isRunning st; wasKilledByUs := true;
       firstResponse := firstResponse st; promise := promise st;
       effects := effects st ++ [killEffect env] |}.
Proof. unfold killProcess, killEffect. now destruct (isWindows env). Qed.

Lemma kills_state (n : nat) (st : ExecutingCmd) :
  Nat.iter n (killProcess env) st
  = {| isRunning := isRunning st;
       wasKilledByUs := wasKilledByUs st || negb (Nat.eqb n 0);
       firstResponse := firstResponse st; promise := promise st;
       effects := effects st ++ repeat (killEffect env) n |}.
Proof.
  induction n as [|n IH]; simpl.
  - rewrite orb_false_r, app_nil_r. now destruct st.
  - rewrite IH, killProcess_state. simpl.
    rewrite orb_true_r, <- app_assoc. f_equal.
    f_equal. symmetry. apply (repeat_cons n (killEffect env)).
Qed.

Lemma callIfGiven_state (callback : option Callback) (called : Effect)
    (st : ExecutingCmd) :
  isKillCall called = false ->
  callIfGiven env callback called st
  = {| isRunning := isRunning st;
       wasKilledByUs :=
         wasKilledByUs st
         || existsb isKillCall (callEffects env callback called (effects st));
       firstResponse := firstResponse st; promise := promise st;
       effects := effects st ++ callEffects env callback called (effects st) |}.
Proof.
  intros Hcalled. unfold callIfGiven, callEffects.
  destruct callback as [callback|].
  - rewrite kills_state. simpl.
    now rewrite Hcalled, existsb_kills, <- app_assoc.
  - simpl. rewrite orb_false_r, app_nil_r. now destruct st.
Qed.

(** *** One event *)

Lemma onData_state (listener : option Callback) (called : Effect)
    (st : ExecutingCmd) :
  isKillCall called = false ->
  let started :=
    if firstResponse st
    then callEffects env (onStart options) CallOnStart (effects st)
    else [] in
  let listened := callEffects env listener called (effects st ++ started) in
  onData options env listener called st
  = {| isRunning := isRunning st;
       wasKilledByUs :=
         wasKilledByUs st || existsb isKillCall (started ++ listened);
       firstResponse := false; promise := promise st;
       effects := effects st ++ started ++ listened |}.
Proof.
  intros Hcalled. unfold onData. cbv zeta.
  destruct (firstResponse st).
  - rewrite (callIfGiven_state (onStart options) CallOnStart st eq_refl).
    rewrite (callIfGiven_state listener called _ Hcalled). simpl.
    now rewrite existsb_app, orb_assoc, app_assoc.
  - rewrite (callIfGiven_state listener called _ Hcalled). simpl.
    now rewrite app_nil_r.
Qed.

Lemma step_effects (st : ExecutingCmd) (ev : Event) :
  effects (step st ev) = effects st ++ emitted cmd options env st ev.
Proof.
  destruct ev as [[data|data|]|error out err]; simpl.
  - destruct (hasStdout env); [|now rewrite app_nil_r].
    now rewrite onData_state.
  - destruct (hasStdout env && hasStderr env); [|now rewrite app_nil_r].
    now rewrite onData_state.
  - now rewrite killProcess_state.
  - unfold handleExit.
    rewrite (callIfGiven_state (onExit options) CallOnExit _ eq_refl). simpl.
    destruct (wasKilledByUs st || existsb isKillCall _); simpl;
      [now rewrite app_nil_r|].
    destruct error as [e|]; [destruct (showMessageOnError options)|];
      simpl; rewrite <- ?app_assoc, ?app_nil_r; reflexivity.
Qed.

Lemma step_wasKilledByUs (st : ExecutingCmd) (ev : Event) :
  wasKilledByUs (step st ev)
  = wasKilledByUs st || existsb isKillCall (emitted cmd options env st ev).
Proof.
  destruct ev as [[data|data|]|error out err]; simpl.
  - destruct (hasStdout env); [|now rewrite orb_false_r].
    now rewrite onData_state.
  - destruct (hasStdout env && hasStderr env); [|now rewrite orb_false_r].
    now rewrite onData_state.
  - rewrite killProcess_state. simpl.
    now rewrite isKillCall_killEffect, orb_true_r.
  - unfold handleExit.
    rewrite (callIfGiven_state (onExit options) CallOnExit _ eq_refl). simpl.
    rewrite existsb_app, orb_assoc.
    destruct (wasKilledByUs st || existsb isKillCall _); simpl;
      [reflexivity|].
    destruct error as [e|]; [destruct (showMessageOnError options)|];
      reflexivity.
Qed.

Lemma step_firstResponse (st : ExecutingCmd) (ev : Event) :
  firstResponse (step st ev) =
  match ev with
  | Act (StdoutData _) => if hasStdout env then false else firstResponse st
  | Act (StderrData _) =>
      if hasStdout env && hasStderr env then false else firstResponse st
  | _ => firstResponse st
  end.
Proof.
  destruct ev as [[data|data|]|error out err]; simpl.
  - destruct (hasStdout env); [|reflexivity]. now rewrite onData_state.
  - destruct (hasStdout env && hasStderr env); [|reflexivity].
    now rewrite onData_state.
  - now rewrite killProcess_state.
  - unfold handleExit.
    rewrite (callIfGiven_state (onExit options) CallOnExit _ eq_refl). simpl.
    destruct (wasKilledByUs st || existsb isKillCall _); simpl;
      [reflexivity|].
    destruct error as [e|]; [destruct (showMessageOnError options)|];
      reflexivity.
Qed.

Lemma step_isRunning (st : ExecutingCmd) (ev : Event) :
  isRunning (step st ev) =
  match ev with
  | Act _ => isRunning st
  | Exit _ _ _ => false
  end.
Proof.
  destruct ev as [[data|data|]|error out err]; simpl.
  - destruct (hasStdout env); [|reflexivity]. now rewrite onData_state.
  - destruct (hasStdout env && hasStderr env); [|reflexivity].
    now rewrite onData_state.
  - now rewrite killProcess_state.
  - unfold handleExit.
    rewrite (callIfGiven_state (onExit options) CallOnExit _ eq_refl). simpl.
    destruct (wasKilledByUs st || existsb isKillCall _); simpl;
      [reflexivity|].
    destruct error as [e|]; [destruct (showMessageOnError options)|];
      reflexivity.
Qed.

(** Data and [kill()] never settle the promise. *)
Lemma step_promise (st : ExecutingCmd) (a : Action) :
  promise (step st (Act a)) = promise st.
Proof.
  destruct a as [data|data|]; simpl.
  - destruct (hasStdout env); [|reflexivity]. now rewrite onData_state.
  - destruct (hasStdout env && hasStderr env); [|reflexivity].
    now rewrite onData_state.
  - now rewrite killProcess_state.
Qed.

(** The promise when the exit callback has run, by cases on what the
    callback sees once [onExit] has returned. *)
Lemma handleExit_promise error stdout stderr (st : ExecutingCmd) :
  promise st = Pending ->
  promise (handleExit cmd options env error stdout stderr st) =
  if wasKilledByUs st
     || existsb isKillCall
          (callEffects env (onExit options) CallOnExit (effects st))
  then Pending
  else match error with
       | Some err =>
           if showMessageOnError options then Pending else Rejected err
       | None => Fulfilled stdout stderr
       end.
Proof.
  intros Hp. unfold handleExit.
  rewrite (callIfGiven_state (onExit options) CallOnExit _ eq_refl). simpl.
  destruct (wasKilledByUs st || existsb isKillCall _); simpl; [exact Hp|].
  destruct error as [e|]; [destruct (showMessageOnError options)|];
    simpl; rewrite ?Hp; reflexivity.
Qed.

(** *** Sequences of events *)

Lemma drive_snoc (events : list Event) (ev : Event) :
  drive cmd options env (events ++ [ev])
  = step (drive cmd options env events) ev.
Proof. unfold drive. now rewrite fold_left_app. Qed.

Lemma actions_promise (acts : list Action) (st : ExecutingCmd) :
  promise (fold_left step (map Act acts) st) = promise st.
Proof.
  revert st. induction acts as [|a acts IH]; intros st; cbn [map fold_left];
    [reflexivity|].
  now rewrite IH, step_promise.
Qed.


(** [wasKilledByUs] says whether [kill()] has been called: every call shows
    in the effects. *)
Lemma drive_wasKilledByUs (events : list Event) :
  wasKilledByUs (drive cmd options env events)
  = existsb isKillCall (effects (drive cmd options env events)).
Proof.
  induction events as [|ev events IH] using rev_ind; [reflexivity|].
  now rewrite drive_snoc, step_wasKilledByUs, step_effects, existsb_app, IH.
Qed.

Lemma run_unfold before error stdout stderr after :
  run before error stdout stderr after =
  fold_left step (map Act after)
    (handleExit cmd options env error stdout stderr
       (drive cmd options env (map Act before))).
Proof. unfold run, drive. now rewrite !fold_left_app. Qed.

(** The promise at the end of a run. *)
Lemma run_promise before error stdout stderr after :
  promise (run before error stdout stderr after) =
  if killedWhenTested cmd options env before then Pending
  else match error with
       | Some err =>
           if showMessageOnError options then Pending else Rejected err
       | None => Fulfilled stdout stderr
       end.
Proof.
  rewrite run_unfold, actions_promise, handleExit_promise.
  - now rewrite drive_wasKilledByUs, <- existsb_app.
  - unfold drive. now rewrite actions_promise.
Qed.


(** A [kill()] of the caller before the exit, and a [kill()] in [onExit],
    are both seen by the exit callback. *)
Lemma killedWhenTested_caller (before : list Action) :
  In Kill before -> killedWhenTested cmd options env before = true.
Proof.
  intros Hkill. unfold killedWhenTested, effectsWhenTested.
  rewrite existsb_app. apply orb_true_iff. left.
  apply in_split in Hkill as (l1 & l2 & ->).
  rewrite map_app. unfold drive. rewrite fold_left_app. cbn [map fold_left].
  fold (drive cmd options env (map Act l1)).
  set (st := step (drive cmd options env (map Act l1)) (Act Kill)).
  assert (Hst : existsb isKillCall (effects st) = true).
  { unfold st. rewrite step_effects, existsb_app. simpl.
    now rewrite isKillCall_killEffect, orb_true_r. }
  clearbody st. revert st Hst.
  induction l2 as [|a l2 IH]; intros st Hst; [exact Hst|].
  cbn [map fold_left]. apply IH.
  now rewrite step_effects, existsb_app, Hst.
Qed.

Lemma killedWhenTested_onExit (before : list Action) (callback : Callback) :
  onExit options = Some callback ->
  callback (effects (drive cmd options env (map Act before)) ++ [CallOnExit])
  <> 0 ->
  killedWhenTested cmd options env before = true.
Proof.
  intros Hexit Hcalls. unfold killedWhenTested, effectsWhenTested.
  rewrite existsb_app, Hexit. apply orb_true_iff. right.
  unfold callEffects. simpl. rewrite existsb_kills.
  now apply negb_true_iff, Nat.eqb_neq.
Qed.


End ExecCmdProperties.



(** The exit callback calls [onExit] before it reads [wasKilledByUs]. *)
Example execCmd_onExit_kills :
  promise (run "elm" ExecExample.killingOnExit ExecExample.env
             [] (Some ExecExample.notFound) EmptyString EmptyString [])
  = Pending
  /\ effects (run "elm" ExecExample.killingOnExit ExecExample.env
                [] None "0.19.1" EmptyString [])
     = [Exec "elm --version"; CallOnExit; KillSigint].
Proof. split; reflexivity. Qed.

(** ** The find-tests provider *)

Section ProviderProperties.

Context `{SyntaxAdapter} `{JSON}.

(** [findTestFunctionCall], as the source states it. *)
Lemma findTestFunctionCall_eq (node : SyntaxNode)
    (typeChecker : TypeChecker) :
  findTestFunctionCall node typeChecker =
  match findChildExpr KLetInExpr (Some node) with
  | Some letIn => findTestFunctionCall (body letIn) typeChecker
  | None =>
      match findExpr KFunctionCallExpr (Some node) with
      | None => None
      | Some call =>
          let t := findType typeChecker (call_node call) in
          if isFunctionReturningTest t then Some call
          else if isUnionTest t then Some call
          else None
      end
  end.
Proof.
  funelim (findTestFunctionCall node typeChecker);
    match goal with Heq : findChildExpr _ _ = _ |- _ => now rewrite Heq end.
Qed.


Lemma isUnionTest_true (t : Ty) :
  isUnionTest t = true -> exists params, t = TUnion "Test.Internal" "Test" params.
Proof.
  destruct t as [| | | | |m n ps| |]; simpl; try discriminate.
  rewrite andb_true_iff, !String.eqb_eq. intros [-> ->]. now exists ps.
Qed.

Lemma isFunctionReturningTest_true (t : Ty) :
  isFunctionReturningTest t = true ->
  exists params ret, t = TFunction params (TUnion "Test.Internal" "Test" ret).
Proof.
  destruct t as [| | | |ps r| | |]; simpl; try discriminate.
  destruct r as [| | | | |m n rs| |]; try discriminate.
  rewrite andb_true_iff, !String.eqb_eq. intros [-> ->]. now exists ps, rs.
Qed.


Lemma findExpr_call_none (node : SyntaxNode) :
  containsNoFunctionCall node ->
  findExpr KFunctionCallExpr (Some node) = None.
Proof.
  intros Hno. unfold findExpr. simpl.
  destruct (String.eqb_spec (type node) "function_call_expr") as [Heq|_].
  { exfalso. apply (Hno node); [now left | exact Heq]. }
  destruct (hd_error (TreeUtils.descendantsOfType node "function_call_expr"))
    as [d|] eqn:Hd.
  - apply hd_error_In, descendantsOfType_subtree in Hd as [Hd Ht].
    exfalso. exact (Hno d Hd Ht).
  - now rewrite map_undefined.
Qed.

(** C9: [findTestFunctionCall] returns [undefined] or a function call
    whose type, as [typeChecker.findType] reports it, is the union
    [Test.Internal.Test] or a function returning that union; and it
    returns [undefined] whenever the node contains no function-call
    expression. *)
Theorem findTestFunctionCall_returns_test_call (node : SyntaxNode)
    (typeChecker : TypeChecker) :
  match findTestFunctionCall node typeChecker with
  | None => True
  | Some call => isTestType (findType typeChecker (call_node call))
  end
  /\ (containsNoFunctionCall node ->
      findTestFunctionCall node typeChecker = None).
Proof.
  induction node as [node IH] using SyntaxNode_size_ind.
  rewrite findTestFunctionCall_eq.
  destruct (findChildExpr KLetInExpr (Some node)) as [letIn|] eqn:Hlet.
  - pose proof (findChildExpr_LetIn_body node letIn Hlet) as Hbody.
    destruct (IH (body letIn) (node_size_descendant _ _ Hbody)) as [IH1 IH2].
    split; [exact IH1|].
    intros Hno. apply IH2. intros d Hd.
    apply Hno. right. exact (subtree_descendants _ _ _ Hbody Hd).
  - split.
    + destruct (findExpr KFunctionCallExpr (Some node)) as [call|];
        [|exact I]. simpl.
      destruct (isFunctionReturningTest _) eqn:Hf.
      { right. now apply isFunctionReturningTest_true. }
      destruct (isUnionTest _) eqn:Hu; [|exact I].
      left. now apply isUnionTest_true.
    + intros Hno. now rewrite findExpr_call_none.
Qed.

Lemma mapM_In_mapM {E A B} (f : A -> JS.completion E B) (xs : list A) :
  mapM_In xs (fun x _ => f x) = JS.mapM f xs.
Proof.
  induction xs as [|x xs IH]; simpl; [reflexivity|]. now rewrite IH.
Qed.

Lemma mapM_Return_In {E A B} (f : A -> JS.completion E B) (xs : list A)
    (ys : list B) :
  JS.mapM f xs = JS.Return ys ->
  forall y, In y ys -> exists x, In x xs /\ f x = JS.Return y.
Proof.
  revert ys. induction xs as [|x xs IH]; simpl; intros ys.
  - intros [= <-] y [].
  - destruct (f x) as [y0|e] eqn:Hx; simpl; [|discriminate].
    destruct (JS.mapM f xs) as [ys0|e]; simpl; [|discriminate].
    intros [= <-] y [<-|Hy].
    + exists x. split; [now left | exact Hx].
    + destruct (IH ys0 eq_refl y Hy) as (x' & Hin & Hfx).
      exists x'. split; [now right | exact Hfx].
Qed.

Lemma mapM_Return_singleton {E A B} (f : A -> JS.completion E B)
    (xs : list A) (y : B) :
  JS.mapM f xs = JS.Return [y] -> exists x, xs = [x] /\ f x = JS.Return y.
Proof.
  destruct xs as [|x [|x' xs]]; simpl.
  - discriminate.
  - destruct (f x) as [y0|e] eqn:Hx; simpl; [|discriminate].
    intros [= <-]. now exists x.
  - destruct (f x) as [y0|e]; simpl; [|discriminate].
    destruct (f x') as [y1|e]; simpl; [|discriminate].
    destruct (JS.mapM f xs) as [ys|e]; simpl; discriminate.
Qed.

Lemma filter_notUndefinedOrNull_In {A} (xs : list (option A)) (a : A) :
  In a (filter_notUndefinedOrNull xs) <-> In (Some a) xs.
Proof.
  unfold filter_notUndefinedOrNull. rewrite in_flat_map. split.
  - intros ([x|] & Hx & Ha); simpl in Ha; [|tauto].
    destruct Ha as [<-|[]]. exact Hx.
  - intros Hx. exists (Some a). split; [exact Hx | now left].
Qed.

(** [findTestSuite] on a call, as the source states it. *)
Lemma findTestSuite_eq (call : EFunctionCallExpr) (sourceFile : ISourceFile)
    (typeChecker : TypeChecker) :
  findTestSuite (Some call) sourceFile typeChecker =
  (let stringArg := findFirstStringArg call typeChecker in
   labelParts ←
     match findAllExprs KStringConstant stringArg with
     | Some es =>
         ls ← JS.mapM stringLiteralToLabel
                (map (fun e => text (string_node e)) es);
         JS.Return (Some ls)
     | None => JS.Return None
     end;
   let position :=
     {| line := row (startPosition (call_node call));
        character := column (startPosition (call_node call)) |} in
   let file := uri sourceFile in
   let label := match labelParts with
                | Some [l] => Some l
                | _ => None
                end in
   match label with
   | Some EmptyString | None => JS.Return None
   | Some label =>
       if isTestSuite call sourceFile typeChecker then
         match option_map exprList
                 (findExpr KListExpr (nth_error (args call) 1)) with
         | Some testExprs =>
             tests ← JS.mapM
                       (fun c => findTestSuite c sourceFile typeChecker)
                       (map (fun e => findTestFunctionCall e typeChecker)
                          testExprs);
             JS.Return
               (Some (mkTestSuite label
                        (Some (filter_notUndefinedOrNull tests))
                        file position))
         | None => JS.Return None
         end
       else JS.Return (Some (mkTestSuite label None file position))
   end).
Proof.
  rewrite findTestSuite_equation_1. unfold Logic.inspect.
  rewrite findTestSuite_clause_2_equation_1. cbv zeta.
  unfold mbind, completion_bind.
  destruct (match findAllExprs KStringConstant _ with
            | Some _ => _ | None => _ end) as [[[|l [|l' ls]]|]|e];
    simpl; try reflexivity.
  destruct l as [|a l]; [reflexivity|].
  destruct (isTestSuite call sourceFile typeChecker); [|reflexivity].
  destruct (option_map exprList _) as [testExprs|]; [|reflexivity].
  simpl. now rewrite mapM_In_mapM.
Qed.


Lemma find_first {A} (f : A -> bool) (l : list A) (x : A) :
  List.find f l = Some x ->
  exists before after,
    l = before ++ x :: after /\ f x = true
    /\ forall y, In y before -> f y = false.
Proof.
  induction l as [|a l IH]; simpl; [discriminate|].
  destruct (f a) eqn:Ha.
  - intros [= ->]. exists [], l. simpl. tauto.
  - intros Hf. destruct (IH Hf) as (before & after & -> & Hx & Hb).
    exists (a :: before), after. simpl. split; [reflexivity|].
    split; [exact Hx|]. intros y [<-|Hy]; [exact Ha | now apply Hb].
Qed.

(** What a returned suite is made of. *)
Lemma findTestSuite_Some_inv (call : EFunctionCallExpr)
    (sourceFile : ISourceFile) (typeChecker : TypeChecker)
    (suite : TestSuite) :
  findTestSuite (Some call) sourceFile typeChecker = JS.Return (Some suite) ->
  exists arg literal,
    findFirstStringArg call typeChecker = Some arg
    /\ findAllExprs KStringConstant (Some arg) = Some [literal]
    /\ stringLiteralToLabel (text (string_node literal))
       = JS.Return (label suite)
    /\ label suite <> EmptyString
    /\ file suite = uri sourceFile
    /\ position suite
       = {| line := row (startPosition (call_node call));
            character := column (startPosition (call_node call)) |}
    /\ match tests suite with
       | None => isTestSuite call sourceFile typeChecker = false
       | Some nested =>
           isTestSuite call sourceFile typeChecker = true
           /\ exists testExprs found,
               option_map exprList
                 (findExpr KListExpr (nth_error (args call) 1))
               = Some testExprs
               /\ JS.mapM (fun c => findTestSuite c sourceFile typeChecker)
                    (map (fun e => findTestFunctionCall e typeChecker)
                       testExprs)
                  = JS.Return found
               /\ nested = filter_notUndefinedOrNull found
       end.
Proof.
  rewrite findTestSuite_eq. cbv zeta. unfold mbind, completion_bind.
  destruct (findFirstStringArg call typeChecker) as [arg|]; [|discriminate].
  destruct (findAllExprs KStringConstant (Some arg)) as [es|] eqn:Hes;
    [|discriminate].
  destruct (JS.mapM stringLiteralToLabel _) as [ls|e] eqn:Hls;
    [|discriminate].
  destruct ls as [|l [|l' ls]]; try discriminate.
  destruct l as [|a l]; [discriminate|].
  apply mapM_Return_singleton in Hls as (x & Hx & Hl).
  destruct es as [|literal [|literal' es]]; try discriminate.
  injection Hx as <-.
  intros Hs. exists arg, literal.
  split; [reflexivity|]. split; [exact Hes|]. clear Hes.
  destruct (isTestSuite call sourceFile typeChecker).
  - destruct (option_map exprList _) as [testExprs|]; [|discriminate].
    destruct (JS.mapM _ _) as [found|e] eqn:Hfound; simpl in Hs;
      [|discriminate].
    injection Hs as <-. simpl.
    repeat (split; [reflexivity || assumption || discriminate|]).
    exists testExprs, found. tauto.
  - injection Hs as <-. simpl.
    repeat (split; [reflexivity || assumption || discriminate|]).
    reflexivity.
Qed.

(** C10: [findTestSuite] returns [undefined] for an undefined call; a suite
    is returned only when the first argument of the call whose type renders
    as [String] contains exactly one string-literal part, and then its label
    is that literal decoded by [JSON.parse] and its position is the start
    row and column of the call node. *)
Theorem findTestSuite_label_and_position (sourceFile : ISourceFile)
    (typeChecker : TypeChecker) :
  findTestSuite None sourceFile typeChecker = JS.Return None
  /\ forall call suite,
       findTestSuite (Some call) sourceFile typeChecker
       = JS.Return (Some suite) ->
       exists before arg after literal,
         args call = before ++ arg :: after
         /\ typeToString typeChecker (findType typeChecker arg) = "String"
         /\ (forall a, In a before ->
               typeToString typeChecker (findType typeChecker a) <> "String")
         /\ findAllExprs KStringConstant (Some arg) = Some [literal]
         /\ stringLiteralToLabel (text (string_node literal))
            = JS.Return (label suite)
         /\ line (position suite) = row (startPosition (call_node call))
         /\ character (position suite)
            = column (startPosition (call_node call)).
Proof.
  split; [apply findTestSuite_equation_2|].
  intros call suite Hs.
  apply findTestSuite_Some_inv in Hs
    as (arg & literal & Harg & Hlit & Hlabel & _ & _ & Hpos & _).
  apply find_first in Harg as (before & after & Hargs & Hty & Hbefore).
  exists before, arg, after, literal.
  split; [exact Hargs|]. split; [now apply String.eqb_eq|].
  split.
  { intros a Ha Heq. specialize (Hbefore a Ha). simpl in Hbefore.
    apply String.eqb_neq in Hbefore. contradiction. }
  rewrite Hpos. simpl. tauto.
Qed.


(** Every suite built from a call of a source file, and every suite nested
    in it, names that file. *)
Lemma findTestSuite_files (sourceFile : ISourceFile)
    (typeChecker : TypeChecker) (call : option EFunctionCallExpr)
    (suite : TestSuite) :
  findTestSuite call sourceFile typeChecker = JS.Return (Some suite) ->
  forall f, In f (suiteFiles suite) -> f = uri sourceFile.
Proof.
  remember (S (call_size call)) as n eqn:Hn.
  assert (Hlt : call_size call < n) by lia. clear Hn.
  revert call suite Hlt.
  induction n as [|n IH]; intros call suite Hlt Hs; [lia|].
  destruct call as [call|]; [|rewrite findTestSuite_equation_2 in Hs;
                               discriminate].
  apply findTestSuite_Some_inv in Hs
    as (_ & _ & _ & _ & _ & _ & Hfile & _ & Htests).
  destruct suite as [l ts f0 p]. cbn [file tests] in Hfile, Htests.
  subst f0. simpl.
  intros f [<-|Hf]; [reflexivity|].
  destruct ts as [nested|]; [|destruct Hf].
  destruct Htests as (_ & testExprs & found & Hexprs & Hfound & ->).
  apply in_flat_map in Hf as (t & Ht & Hf).
  apply filter_notUndefinedOrNull_In in Ht.
  destruct (mapM_Return_In _ _ _ Hfound _ Ht) as (c & Hc & Hct).
  apply (IH c t); [|exact Hct|exact Hf].
  assert (call_size c < call_size (Some call)); [|lia].
  apply (testCalls_smaller call typeChecker). rewrite Hexprs. exact Hc.
Qed.

(** C7: [findAllTestSuites] builds suites from test files only.  A source
    file whose [isTestFile] flag is false contributes nothing: the result is
    the same without it; and every suite of the result, with the suites
    nested in it, names a file of the forest whose flag is true. *)
Theorem findAllTestSuites_only_test_files (program : IProgram) :
  (forall before sourceFile after,
     treeMap program = before ++ sourceFile :: after ->
     sf_isTestFile sourceFile = false ->
     findAllTestSuites program
     = findAllTestSuites
         {| getRootPath := getRootPath program;
            treeMap := before ++ after;
            getTypeChecker := getTypeChecker program |})
  /\ (forall suites suite,
        findAllTestSuites program = JS.Return suites ->
        In suite suites ->
        exists sourceFile,
          In sourceFile (treeMap program)
          /\ sf_isTestFile sourceFile = true
          /\ forall f, In f (suiteFiles suite) -> f = uri sourceFile).
Proof.
  split.
  - intros before sourceFile after Hmap Hflag.
    unfold findAllTestSuites. simpl. rewrite Hmap, !List.filter_app. simpl.
    now rewrite Hflag.
  - intros suites suite. unfold findAllTestSuites, mbind, completion_bind.
    destruct (JS.mapM _ _) as [found|e] eqn:Hfound; simpl; [|discriminate].
    intros [= <-] Hin.
    apply filter_notUndefinedOrNull_In, in_concat in Hin as (l & Hl & Hin).
    destruct (mapM_Return_In _ _ _ Hfound _ Hl) as (sourceFile & Hsf & Hl').
    apply filter_In in Hsf as [Hsf Hflag].
    exists sourceFile. split; [exact Hsf|]. split; [exact Hflag|].
    unfold suitesOfFile in Hl'.
    destruct (TreeUtils.findAllTopLevelFunctionDeclarations _) as [tops|].
    + destruct (mapM_Return_In _ _ _ Hl' _ Hin) as (top & _ & Htop).
      exact (findTestSuite_files _ _ _ _ Htop).
    + injection Hl' as <-. destruct Hin as [Hin|[]]. discriminate.
Qed.


Lemma find_first_match {A} (f : A -> bool) (before : list A) (x : A)
    (after : list A) :
  f x = true -> (forall y, In y before -> f y = false) ->
  List.find f (before ++ x :: after) = Some x.
Proof.
  intros Hx. induction before as [|a before IH]; simpl; intros Hb.
  - now rewrite Hx.
  - rewrite (Hb a (or_introl eq_refl)). apply IH.
    intros y Hy. apply Hb. now right.
Qed.

Lemma find_no_match {A} (f : A -> bool) (l : list A) :
  (forall y, In y l -> f y = false) -> List.find f l = None.
Proof.
  induction l as [|a l IH]; simpl; intros Hl; [reflexivity|].
  rewrite (Hl a (or_introl eq_refl)). apply IH.
  intros y Hy. apply Hl. now right.
Qed.

(** C1, as amended: a find-tests request is routed to the first program
    whose root path equals the project folder of the request, as text: the
    handler answers with what [findAllTestSuites] gives for that program.
    When no program has that root, the caller receives the response error
    13, [Error finding tests], which does not carry the project folder.
    The lines the handler logs are part of the statement. *)
Theorem onFindTestsRequest_routes_by_equal_root
    (elmWorkspaces : list IProgram) (projectFolder : string) :
  (forall before program after,
     elmWorkspaces = before ++ program :: after ->
     getRootPath program = projectFolder ->
     (forall p, In p before -> getRootPath p <> projectFolder) ->
     onFindTestsRequest elmWorkspaces projectFolder
     = match findAllTestSuites program with
       | JS.Return suites =>
           ([console_info ("Finding tests is requested " +:+ projectFolder);
             console_info
               ("Found " +:+ JS.String_of_nat (length suites)
                  +:+ " top test suites in " +:+ projectFolder)],
            IFindTestsResponse suites)
       | JS.Throw _ =>
           ([console_info ("Finding tests is requested " +:+ projectFolder);
             console_error "Error finding tests"],
            ResponseError 13 "Error finding tests")
       end)
  /\ ((forall p, In p elmWorkspaces -> getRootPath p <> projectFolder) ->
      onFindTestsRequest elmWorkspaces projectFolder
      = ([console_info ("Finding tests is requested " +:+ projectFolder);
          console_error "Error finding tests"],
         ResponseError 13 "Error finding tests")).
Proof.
  split.
  - intros before program after -> Hroot Hbefore.
    unfold onFindTestsRequest, mbind, completion_bind.
    rewrite (find_first_match _ before program after).
    + simpl. now destruct (findAllTestSuites program).
    + now apply String.eqb_eq.
    + intros p Hp. apply String.eqb_neq. now apply Hbefore.
  - intros Hnone. unfold onFindTestsRequest, mbind, completion_bind.
    rewrite find_no_match; [reflexivity|].
    intros p Hp. apply String.eqb_neq. now apply Hnone.
Qed.

End ProviderProperties.

(** *** The example module *)

Example findAllTestSuites_example :
  findAllTestSuites Example.program = JS.Return [Example.theSuite].
Proof. vm_compute. reflexivity. Qed.

Example findTestFunctionCall_example :
  findTestFunctionCall Example.suiteDeclaration Example.typeChecker
  = Some Example.describeExpr
  /\ option_map call_node
       (findTestFunctionCall Example.testList Example.typeChecker)
     = Some Example.testCall.
Proof. split; vm_compute; reflexivity. Qed.

(** Two requests that the claim as worded gets wrong.  A project folder
    below the workspace root: the root is a prefix of it, the program has a
    suite, and the request fails all the same.  A project folder with no
    program at all: the failure is the generic one and does not carry the
    project folder. *)
Lemma onFindTestsRequest_prefix_not_routed :
  ~ @routes_as_specified Example.adapter Example.json
  /\ snd (onFindTestsRequest [Example.program] "file:///ws/tests")
     = ResponseError 13 "Error finding tests"
  /\ snd (onFindTestsRequest [] "file:///elsewhere")
     = ResponseError 13 "Error finding tests"
  /\ ~ names_missing_workspace
         (snd (onFindTestsRequest [] "file:///elsewhere"))
         "file:///elsewhere".
Proof.
  split; [|split; [reflexivity|split; [reflexivity|]]].
  - intros Hclaim.
    specialize (Hclaim [Example.program] "file:///ws/tests").
    change (spec_route [Example.program] "file:///ws/tests")
      with (@JS.Return Exception _ Example.program) in Hclaim.
    specialize (Hclaim _ findAllTestSuites_example).
    vm_compute in Hclaim. discriminate.
  - vm_compute. discriminate.
Qed.

Lemma onFindTestsRequest_routes_by_equal_root_witness :
  onFindTestsRequest [Example.program] "file:///ws"
  = ([console_info "Finding tests is requested file:///ws";
      console_info "Found 1 top test suites in file:///ws"],
     IFindTestsResponse [Example.theSuite])
  /\ onFindTestsRequest [Example.program] "file:///ws/tests"
     = ([console_info "Finding tests is requested file:///ws/tests";
         console_error "Error finding tests"],
        ResponseError 13 "Error finding tests").
Proof.
  split.
  - rewrite (proj1 (onFindTestsRequest_routes_by_equal_root
                      [Example.program] "file:///ws")
               [] Example.program [] eq_refl eq_refl).
    + now rewrite findAllTestSuites_example.
    + intros p [].
  - apply (proj2 (onFindTestsRequest_routes_by_equal_root
                    [Example.program] "file:///ws/tests")).
    intros p [<-|[]]. simpl. discriminate.
Defined.

Lemma findTestFunctionCall_returns_test_call_witness :
  isTestType
    (findType Example.typeChecker Example.describeCall)
  /\ findTestFunctionCall Example.lambda Example.typeChecker = None.
Proof.
  split.
  - pose proof (proj1 (findTestFunctionCall_returns_test_call
                         Example.suiteDeclaration Example.typeChecker)) as Ht.
    vm_compute in Ht. exact Ht.
  - apply (proj2 (findTestFunctionCall_returns_test_call
                    Example.lambda Example.typeChecker)).
    intros d [<-|[]]. simpl. discriminate.
Defined.

Lemma findTestSuite_label_and_position_witness :
  findTestSuite (Some Example.describeExpr) Example.testFile
    Example.typeChecker
  = JS.Return (Some Example.theSuite)
  /\ exists before arg after literal,
       args Example.describeExpr = before ++ arg :: after
       /\ typeToString Example.typeChecker
            (findType Example.typeChecker arg) = "String"
       /\ (forall a, In a before ->
             typeToString Example.typeChecker
               (findType Example.typeChecker a) <> "String")
       /\ findAllExprs KStringConstant (Some arg) = Some [literal]
       /\ stringLiteralToLabel (text (string_node literal))
          = JS.Return "The suite"
       /\ 4 = row (startPosition Example.describeCall)
       /\ 4 = column (startPosition Example.describeCall).
Proof.
  assert (Hsuite :
    findTestSuite (Some Example.describeExpr) Example.testFile
      Example.typeChecker
    = JS.Return (Some Example.theSuite)) by (vm_compute; reflexivity).
  split; [exact Hsuite|].
  exact (proj2 (findTestSuite_label_and_position
                  Example.testFile Example.typeChecker)
           Example.describeExpr Example.theSuite Hsuite).
Defined.

Lemma findAllTestSuites_only_test_files_witness :
  findAllTestSuites Example.program
  = findAllTestSuites
      {| getRootPath := "file:///ws"; treeMap := [Example.testFile];
         getTypeChecker := Example.typeChecker |}
  /\ exists sourceFile,
       In sourceFile (treeMap Example.program)
       /\ sf_isTestFile sourceFile = true
       /\ forall f, In f (suiteFiles Example.theSuite) -> f = uri sourceFile.
Proof.
  split.
  - apply (proj1 (findAllTestSuites_only_test_files Example.program)
             [] Example.sourceFile [Example.testFile]); reflexivity.
  - apply (proj2 (findAllTestSuites_only_test_files Example.program)
             [Example.theSuite] Example.theSuite).
    + exact findAllTestSuites_example.
    + now left.
Defined.

(** ** The type checker's cache *)

Section TypeCacheProperties.

Context {Node : Type} `{Finite Node}.
Context {Declaration : Type} `{EqDecision Declaration}.
Variable enclosingDeclaration : Node -> Declaration.
Variable infer : Declaration -> Node -> Ty.

(** A node is a sub-node of its enclosing declaration. *)
Lemma subNodes_enclosing (n : Node) :
  n ∈ Checker.subNodes enclosingDeclaration (enclosingDeclaration n).
Proof.
  unfold Checker.subNodes. apply list_elem_of_filter.
  split; [reflexivity | apply elem_of_enum].
Qed.

Lemma populate_lookup (d : Declaration) (cache : gmap Node Ty) (n : Node) :
  Checker.populate enclosingDeclaration infer d cache !! n
  = if decide (enclosingDeclaration n = d) then Some (infer d n)
    else cache !! n.
Proof.
  unfold Checker.populate.
  assert (Hin : forall l : list Node,
    foldr (fun m c => <[m := infer d m]> c) cache l !! n
    = if decide (n ∈ l) then Some (infer d n) else cache !! n).
  { induction l as [|m l IH]; simpl.
    - destruct (decide (n ∈ [])) as [Hn|_]; [|reflexivity].
      now apply not_elem_of_nil in Hn.
    - destruct (decide (m = n)) as [->|Hne].
      + rewrite lookup_insert_eq.
        destruct (decide (n ∈ n :: l)) as [_|Hn]; [reflexivity|].
        exfalso. apply Hn. left.
      + rewrite lookup_insert_ne by exact Hne. rewrite IH.
        destruct (decide (n ∈ l)) as [Hl|Hl],
                 (decide (n ∈ m :: l)) as [Hml|Hml]; try reflexivity.
        * exfalso. apply Hml. now right.
        * exfalso. apply elem_of_cons in Hml as [->|Hml]; tauto. }
  rewrite Hin. unfold Checker.subNodes.
  destruct (decide (n ∈ filter _ (enum Node))) as [Hn|Hn],
           (decide (enclosingDeclaration n = d)) as [Hd|Hd];
    try reflexivity.
  - apply list_elem_of_filter in Hn as [Hn _]. contradiction.
  - exfalso. apply Hn. apply list_elem_of_filter.
    split; [exact Hd | apply elem_of_enum].
Qed.


(** A miss populates the cache for the whole declaration, and for it only:
    the nodes of the other declarations keep what the cache held. *)
Lemma findType_populates (node other : Node)
    (st : Checker.CheckerState Node) :
  Checker.typeCache st !! node = None ->
  Checker.typeCache
    (snd (Checker.findType enclosingDeclaration infer node st)) !! other
  = if decide (enclosingDeclaration other = enclosingDeclaration node)
    then Some (infer (enclosingDeclaration node) other)
    else Checker.typeCache st !! other.
Proof.
  intros Hmiss. unfold Checker.findType. rewrite Hmiss. simpl.
  apply populate_lookup.
Qed.

End TypeCacheProperties.


Example findType_first_call_infers :
  let '(t1, st1) :=
    Checker.findType CacheExample.enclosingDeclaration CacheExample.infer
      CacheExample.describeCall CacheExample.fresh in
  t1 = Example.TTest /\ Checker.inferences st1 = 1.
Proof. split; reflexivity. Qed.

(** * Further properties *)

(** ** [execCmd]: callbacks and settlement *)

Section ExecCmdCallbacks.

Variable cmd : string.
Variable options : IExecCmdOptions.
Variable env : ExecEnv.

(** *** Reading the effects *)







Lemma kills_quiet (n : nat) (e : Effect) :
  In e (repeat (killEffect env) n) -> isDataCall e = false.
Proof.
  intros He. apply repeat_spec in He as ->.
  unfold killEffect. now destruct (isWindows env).
Qed.

Lemma callEffects_quiet (callback : option Callback) (called : Effect)
    (history : list Effect) (e : Effect) :
  isDataCall called = false ->
  In e (callEffects env callback called history) -> isDataCall e = false.
Proof.
  intros Hcalled. unfold callEffects. destruct callback as [callback|];
    [|intros []].
  intros [<-|He]; [exact Hcalled | exact (kills_quiet _ _ He)].
Qed.

(** What the exit callback and [kill()] add is no data call. *)
Lemma emitted_quiet (st : ExecutingCmd) (ev : Event) (e : Effect) :
  match ev with
  | Act (StdoutData _) => hasStdout env = false
  | Act (StderrData _) => hasStdout env && hasStderr env = false
  | _ => True
  end ->
  In e (emitted cmd options env st ev) -> isDataCall e = false.
Proof.
  destruct ev as [[data|data|]|error out err]; cbn [emitted].
  - now intros ->.
  - now intros ->.
  - intros _ [<-|[]]. unfold killEffect. now destruct (isWindows env).
  - intros _. rewrite in_app_iff. intros [He|He].
    + now apply callEffects_quiet in He.
    + destruct (wasKilledByUs st || _); [destruct He|].
      destruct error as [err'|]; [|destruct He].
      destruct (showMessageOnError options); [|destruct He].
      now destruct He as [<-|[]].
Qed.





Lemma outputsStarted_app (started : bool) (l l' : list Effect) :
  outputsStarted started (l ++ l') =
  outputsStarted started l
  && outputsStarted (started || existsb isStartCall l) l'.
Proof.
  revert started. induction l as [|e l IH]; intros started; simpl.
  - now rewrite orb_false_r.
  - destruct e; simpl; rewrite IH, ?orb_true_r, ?orb_false_r;
      try reflexivity; now rewrite andb_assoc.
Qed.

Lemma outputsStarted_split (started : bool) (pre post : list Effect)
    (e : Effect) :
  outputsStarted started (pre ++ e :: post) = true ->
  isOutputCall e = true -> started = true \/ In CallOnStart pre.
Proof.
  rewrite outputsStarted_app, andb_true_iff. intros [_ Hl] He.
  destruct e; try discriminate; simpl in Hl;
    apply andb_true_iff in Hl as [Hs _];
    apply orb_true_iff in Hs as [Hs|Hs]; auto;
    right; apply existsb_exists in Hs as (x & Hx & Hstart);
    destruct x; try discriminate; exact Hx.
Qed.

Lemma outputsStarted_true (l : list Effect) : outputsStarted true l = true.
Proof.
  induction l as [|e l IH]; [reflexivity|].
  destruct e; simpl; rewrite ?orb_true_r; exact IH.
Qed.

Lemma outputsStarted_quiet (started : bool) (l : list Effect) :
  (forall e, In e l -> isDataCall e = false) ->
  outputsStarted started l = true /\ existsb isStartCall l = false.
Proof.
  induction l as [|e l IH]; intros Hl; [now split|].
  assert (He : isDataCall e = false) by (apply Hl; now left).
  assert (Hl' : forall x, In x l -> isDataCall x = false)
    by (intros x Hx; apply Hl; now right).
  destruct e; try discriminate; simpl; now apply IH.
Qed.

Lemma drive_outputsStarted (events : list Event) :
  onStart options <> None ->
  let st := drive cmd options env events in
  outputsStarted false (effects st) = true
  /\ (firstResponse st = false -> existsb isStartCall (effects st) = true).
Proof.
  intros Hstart.
  destruct (onStart options) as [starting|] eqn:Hstarting; [|contradiction].
  clear Hstart.
  induction events as [|ev events IH] using rev_ind;
    [split; [reflexivity|discriminate]|].
  rewrite drive_snoc. cbv zeta in *.
  set (st := drive cmd options env events) in *.
  destruct IH as [IHord IHseen].
  rewrite step_effects, step_firstResponse, outputsStarted_app, existsb_app,
    IHord.
  assert (Hquiet :
    (forall e, In e (emitted cmd options env st ev) -> isDataCall e = false) ->
    true && outputsStarted (false || existsb isStartCall (effects st))
              (emitted cmd options env st ev) = true
    /\ (firstResponse st = false ->
        existsb isStartCall (effects st)
        || existsb isStartCall (emitted cmd options env st ev) = true)).
  { intros Hq.
    destruct (outputsStarted_quiet
                (false || existsb isStartCall (effects st)) _ Hq) as [-> ->].
    split; [reflexivity|]. intros Hf. now rewrite (IHseen Hf). }
  assert (Hdata : forall listener called,
    let started :=
      if firstResponse st
      then callEffects env (onStart options) CallOnStart (effects st)
      else [] in
    let listened :=
      callEffects env listener called (effects st ++ started) in
    true && outputsStarted (false || existsb isStartCall (effects st))
              (started ++ listened) = true
    /\ existsb isStartCall (effects st)
       || existsb isStartCall (started ++ listened) = true).
  { intros listener called started listened. subst started listened.
    rewrite Hstarting. destruct (firstResponse st) eqn:Hf.
    - unfold callEffects at 1 3. simpl.
      now rewrite outputsStarted_true, orb_true_r.
    - rewrite (IHseen eq_refl). simpl. now rewrite outputsStarted_true. }
  destruct ev as [[data|data|]|error out err].
  - cbn [emitted]. destruct (hasStdout env) eqn:Hout.
    + destruct (Hdata (onStdout options) (CallOnStdout data)) as [Ho Hs].
      split; [exact Ho | intros _; exact Hs].
    + split; [reflexivity | intros Hf; now rewrite (IHseen Hf)].
  - cbn [emitted]. destruct (hasStdout env && hasStderr env) eqn:Hout.
    + destruct (Hdata (onStderr options) (CallOnStderr data)) as [Ho Hs].
      split; [exact Ho | intros _; exact Hs].
    + split; [reflexivity | intros Hf; now rewrite (IHseen Hf)].
  - apply Hquiet. intros e. now apply emitted_quiet.
  - apply Hquiet. intros e. now apply emitted_quiet.
Qed.

(** X2: when [onStart] is given, every call of [onStdout] or [onStderr]
    comes after the call of [onStart]. *)
Theorem execCmd_onStart_first (events : list Event)
    (pre post : list Effect) (e : Effect) :
  onStart options <> None ->
  effects (drive cmd options env events) = pre ++ e :: post ->
  isOutputCall e = true ->
  In CallOnStart pre.
Proof.
  intros Hstart Heff He.
  destruct (drive_outputsStarted events Hstart) as [Hord _].
  rewrite Heff in Hord.
  destruct (outputsStarted_split _ _ _ _ Hord He) as [Hf|Hin];
    [discriminate | exact Hin].
Qed.

(** How the flags and the effects of a run come about. *)
Lemma actions_isRunning (acts : list Action) (st : ExecutingCmd) :
  isRunning (fold_left (step cmd options env) (map Act acts) st)
  = isRunning st.
Proof.
  revert st. induction acts as [|a acts IH]; intros st; cbn [map fold_left];
    [reflexivity|].
  now rewrite IH, step_isRunning.
Qed.

(** What an event adds to the effects, seen through a test that no
    [kill()] passes. *)
Lemma filter_kills (test : Effect -> bool) (n : nat) :
  test (killEffect env) = false ->
  List.filter test (repeat (killEffect env) n) = [].
Proof.
  intros Hk. induction n as [|n IH]; [reflexivity|]. simpl. now rewrite Hk.
Qed.

Lemma filter_callEffects (test : Effect -> bool)
    (callback : option Callback) (called : Effect) (history : list Effect) :
  test (killEffect env) = false ->
  List.filter test (callEffects env callback called history)
  = match callback with
    | Some _ => List.filter test [called]
    | None => []
    end.
Proof.
  intros Hk. unfold callEffects. destruct callback as [callback|];
    [|reflexivity].
  simpl. rewrite (filter_kills test _ Hk). now destruct (test called).
Qed.

Lemma isExitCall_killEffect : isExitCall (killEffect env) = false.
Proof. unfold killEffect. now destruct (isWindows env). Qed.

Lemma isShowErrorMessage_killEffect :
  isShowErrorMessage (killEffect env) = false.
Proof. unfold killEffect. now destruct (isWindows env). Qed.

Lemma filter_emitted_action (test : Effect -> bool) (st : ExecutingCmd)
    (a : Action) :
  test (killEffect env) = false -> test CallOnStart = false ->
  (forall data, test (CallOnStdout data) = false) ->
  (forall data, test (CallOnStderr data) = false) ->
  List.filter test (emitted cmd options env st (Act a)) = [].
Proof.
  intros Hk Hstart Hout Herr.
  assert (Hdata : forall listener called,
    test called = false ->
    let started :=
      if firstResponse st
      then callEffects env (onStart options) CallOnStart (effects st)
      else [] in
    List.filter test
      (started ++ callEffects env listener called (effects st ++ started))
    = []).
  { intros listener called Hcalled started. subst started.
    rewrite List.filter_app.
    destruct (firstResponse st);
      rewrite !(filter_callEffects test) by exact Hk;
      destruct (onStart options), listener; simpl;
      rewrite ?Hstart, ?Hcalled; reflexivity. }
  destruct a as [data|data|]; cbn [emitted].
  - destruct (hasStdout env); [|reflexivity]. now apply Hdata.
  - destruct (hasStdout env && hasStderr env); [|reflexivity].
    now apply Hdata.
  - simpl. now rewrite Hk.
Qed.

Lemma drive_exit_calls (events : list Event) :
  length (List.filter isExitCall (effects (drive cmd options env events)))
  = match onExit options with
    | Some _ =>
        length (List.filter
                  (fun ev => match ev with Exit _ _ _ => true | _ => false end)
                  events)
    | None => 0
    end.
Proof.
  induction events as [|ev events IH] using rev_ind.
  - simpl. now destruct (onExit options).
  - rewrite drive_snoc, step_effects, !List.filter_app, !length_app, IH.
    set (st := drive cmd options env events).
    destruct ev as [a|error out err].
    + rewrite (filter_emitted_action isExitCall)
        by (reflexivity || exact isExitCall_killEffect).
      destruct (onExit options); simpl; lia.
    + cbn [emitted].
      rewrite List.filter_app, length_app,
        (filter_callEffects isExitCall _ _ _ isExitCall_killEffect).
      match goal with
      | |- context [List.filter isExitCall (if ?c then [] else ?r)] =>
          assert (Hrest : List.filter isExitCall (if c then [] else r) = [])
      end.
      { destruct (wasKilledByUs st || _); [reflexivity|].
        destruct error as [e|]; [|reflexivity].
        now destruct (showMessageOnError options). }
      rewrite Hrest. destruct (onExit options); simpl; lia.
Qed.

Lemma run_drive before error stdout stderr after :
  run cmd options env before error stdout stderr after
  = drive cmd options env
      (map Act before ++ [Exit error stdout stderr] ++ map Act after).
Proof. reflexivity. Qed.

(** X3: the handle reports the process as running until the exit callback
    has run and as not running from then on, whether it was killed or not;
    [onExit], when given, is called exactly once in a run. *)
Theorem execCmd_exit_once
    (before : list Action) (error : option ExecException)
    (stdout stderr : string) (after : list Action) :
  isRunning (drive cmd options env (map Act before)) = true
  /\ isRunning (run cmd options env before error stdout stderr after)
     = false
  /\ length (List.filter isExitCall
               (effects (run cmd options env
                           before error stdout stderr after)))
     = match onExit options with Some _ => 1 | None => 0 end.
Proof.
  split; [|split].
  - unfold drive. now rewrite actions_isRunning.
  - rewrite run_unfold, actions_isRunning.
    exact (step_isRunning cmd options env _ (Exit error stdout stderr)).
  - rewrite run_drive, drive_exit_calls. destruct (onExit options); [|reflexivity].
    rewrite !List.filter_app, !length_app. simpl.
    assert (Hnone : forall acts,
      List.filter (fun ev => match ev with Exit _ _ _ => true | _ => false end)
        (map Act acts) = []).
    { intros acts. induction acts as [|a acts IHa]; [reflexivity|exact IHa]. }
    now rewrite !Hnone.
Qed.



(** When no callback calls [kill()], the exit callback sees the calls of
    the caller, and those before the exit only. *)
Lemma killedWhenTested_quiet (before : list Action) :
  (forall callback history,
     In (Some callback)
        [onStart options; onStdout options; onStderr options;
         onExit options] ->
     callback history = 0) ->
  killedWhenTested cmd options env before = true <-> In Kill before.
Proof.
  intros Hquiet. split; [|apply killedWhenTested_caller].
  assert (Hcall : forall callback called history,
    In callback [onStart options; onStdout options; onStderr options;
                 onExit options] ->
    isKillCall called = false ->
    existsb isKillCall (callEffects env callback called history) = false).
  { intros [callback|] called history Hin Hcalled; [|reflexivity].
    unfold callEffects. rewrite (Hquiet callback _ Hin). simpl.
    now rewrite Hcalled. }
  unfold killedWhenTested, effectsWhenTested.
  rewrite existsb_app, (Hcall (onExit options)), orb_false_r
    by (simpl; tauto).
  induction before as [|a before IH] using rev_ind; [discriminate|].
  rewrite map_app, in_app_iff. cbn [map]. rewrite drive_snoc, step_effects,
    existsb_app, orb_true_iff.
  intros [Hb|Ha]; [left; now apply IH|].
  destruct a as [data|data|]; [| |right; now left]; exfalso;
    cbn [emitted] in Ha.
  - destruct (hasStdout env); [|discriminate].
    rewrite existsb_app in Ha.
    destruct (firstResponse _);
      rewrite ?Hcall in Ha by (simpl; tauto); discriminate.
  - destruct (hasStdout env && hasStderr env); [|discriminate].
    rewrite existsb_app in Ha.
    destruct (firstResponse _);
      rewrite ?Hcall in Ha by (simpl; tauto); discriminate.
Qed.

End ExecCmdCallbacks.


Lemma execCmd_onStart_first_witness :
  In CallOnStart [Exec "elm --version"; CallOnStart; CallOnStdout "0.19"].
Proof.
  apply (execCmd_onStart_first "elm" CallbackExample.listening ExecExample.env
           CallbackExample.events
           [Exec "elm --version"; CallOnStart; CallOnStdout "0.19"]
           [CallOnExit] (CallOnStderr "warning")).
  - discriminate.
  - reflexivity.
  - reflexivity.
Defined.



(** ** [getElmVersion] *)

Lemma indexOf_from_absent (i : Z) (s : string) (c : ascii) :
  ~ In c (list_ascii_of_string s) -> JSText.indexOf_from i s c = (-1)%Z.
Proof.
  revert i. induction s as [|a s IH]; intros i Hc; simpl; [reflexivity|].
  destruct (Ascii.eqb_spec a c) as [->|Hne].
  - exfalso. apply Hc. now left.
  - apply IH. intros Hin. apply Hc. now right.
Qed.

Lemma indexOf_from_first (i : Z) (first rest : string) (c : ascii) :
  ~ In c (list_ascii_of_string first) ->
  JSText.indexOf_from i (first +:+ String c rest) c
  = (i + Z.of_nat (String.length first))%Z.
Proof.
  revert i. induction first as [|a first IH]; intros i Hc.
  - simpl. rewrite Ascii.eqb_refl. lia.
  - change (String a first +:+ String c rest)
      with (String a (first +:+ String c rest)).
    cbn [JSText.indexOf_from].
    destruct (Ascii.eqb_spec a c) as [->|Hne].
    + exfalso. apply Hc. now left.
    + rewrite IH by (intros Hin; apply Hc; now right).
      cbn [String.length]. lia.
Qed.

Lemma substring_0_0 (s : string) : String.substring 0 0 s = EmptyString.
Proof. now destruct s. Qed.

Lemma substring_prefix (first rest : string) :
  String.substring 0 (String.length first) (first +:+ rest) = first.
Proof.
  induction first as [|a first IH]; [apply substring_0_0|].
  change (String a first +:+ rest) with (String a (first +:+ rest)).
  cbn [String.length String.substring]. now rewrite IH.
Qed.

Lemma length_append (a b : string) :
  String.length (a +:+ b) = String.length a + String.length b.
Proof.
  induction a as [|x a IH]; [reflexivity|].
  change (String x a +:+ b) with (String x (a +:+ b)).
  cbn [String.length]. now rewrite IH.
Qed.

(** X6: the version is the first line of the output, trimmed; an output
    without a line feed gives the empty version, whatever it holds. *)
Theorem versionOf_first_line :
  (forall stdout,
     ~ In JSText.newline (list_ascii_of_string stdout) ->
     versionOf stdout = EmptyString)
  /\ (forall first rest,
        ~ In JSText.newline (list_ascii_of_string first) ->
        versionOf (first +:+ String JSText.newline rest)
        = JSText.trim first).
Proof.
  split.
  - intros stdout Hnone. unfold versionOf, JSText.indexOf.
    rewrite (indexOf_from_absent _ _ _ Hnone). unfold JSText.substring.
    replace (Z.min (Z.max (-1) 0) (Z.of_nat (String.length stdout)))
      with 0%Z by lia.
    replace (Z.min (Z.max 0 0) (Z.of_nat (String.length stdout)))
      with 0%Z by lia.
    simpl. now rewrite substring_0_0.
  - intros first rest Hfirst. unfold versionOf, JSText.indexOf.
    rewrite (indexOf_from_first _ _ _ _ Hfirst). unfold JSText.substring.
    rewrite length_append. cbn [String.length].
    replace (Z.min (Z.max 0 0) _) with 0%Z by lia.
    replace (Z.min (Z.max (0 + Z.of_nat (String.length first)) 0) _)
      with (Z.of_nat (String.length first)) by lia.
    replace (Z.min 0 (Z.of_nat (String.length first))) with 0%Z by lia.
    replace (Z.max 0 (Z.of_nat (String.length first)))
      with (Z.of_nat (String.length first)) by lia.
    rewrite Z.sub_0_r, Nat2Z.id. simpl (Z.to_nat 0).
    now rewrite substring_prefix.
Qed.

Lemma versionOf_first_line_witness :
  versionOf "0.19.1" = EmptyString
  /\ versionOf (" 0.19.1 " +:+ String JSText.newline "more")
     = "0.19.1".
Proof.
  split.
  - apply (proj1 versionOf_first_line "0.19.1"). vm_compute.
    intuition discriminate.
  - rewrite (proj2 versionOf_first_line " 0.19.1 " "more"); [reflexivity|].
    vm_compute. intuition discriminate.
Defined.

(** With [showMessageOnError] unset nothing is shown on the connection. *)
Lemma drive_no_message (cmd : string) (options : IExecCmdOptions)
    (env : ExecEnv) (events : list Event) :
  showMessageOnError options = false ->
  List.filter isShowErrorMessage (effects (drive cmd options env events))
  = [].
Proof.
  intros Hshow. induction events as [|ev events IH] using rev_ind;
    [reflexivity|].
  rewrite drive_snoc, step_effects, List.filter_app, IH.
  set (st := drive cmd options env events).
  destruct ev as [a|error out err].
  - apply filter_emitted_action;
      reflexivity || apply isShowErrorMessage_killEffect.
  - cbn [emitted]. rewrite Hshow, List.filter_app.
    rewrite (filter_callEffects env isShowErrorMessage _ _ _
               (isShowErrorMessage_killEffect env)).
    destruct (onExit options), (wasKilledByUs st || _), error as [e|];
      reflexivity.
Qed.

Lemma written_no_kill (chunks : list Chunk) : ~ In Kill (map written chunks).
Proof.
  induction chunks as [|chunk chunks IH]; [intros []|].
  intros [Hkill|Hin]; [now destruct chunk | exact (IH Hin)].
Qed.

(** X7: [getElmVersion] gives the version read from the output, and logs
    it, when the command exits without error, and rejects with the exec
    error when it fails, a missing binary included, whatever the child
    wrote before: it completes as soon as the child has exited.  It never
    shows an error message on the connection, so the [notFoundText] it
    passes is not used. *)
Theorem getElmVersion_outcome (elmPath : string) (env : ExecEnv)
    (chunks : list Chunk) (error : option ExecException)
    (stdout stderr : string) :
  getElmVersion elmPath env chunks error stdout stderr
  = match error with
    | Some e => Settled (JS.Throw e)
    | None =>
        Settled
          (JS.Return
             (console_info
                ("Elm version " +:+ versionOf stdout +:+ " detected."),
              versionOf stdout))
    end
  /\ List.filter isShowErrorMessage
       (effects (run elmPath getElmVersion_options env
                   (map written chunks) error stdout stderr []))
     = [].
Proof.
  split.
  - unfold getElmVersion. rewrite run_promise.
    destruct (killedWhenTested _ _ _ _) eqn:Hkilled.
    + apply killedWhenTested_quiet in Hkilled.
      * now apply written_no_kill in Hkilled.
      * intros callback history Hin. simpl in Hin.
        intuition discriminate.
    + now destruct error.
  - rewrite run_drive. now apply drive_no_message.
Qed.

Lemma getElmVersion_outcome_witness :
  getElmVersion "elm" ExecExample.env
    [ToStdout ("0.19.1" +:+ String JSText.newline EmptyString)] None
    ("0.19.1" +:+ String JSText.newline EmptyString) EmptyString
  = Settled (JS.Return (console_info "Elm version 0.19.1 detected.",
                        "0.19.1"))
  /\ getElmVersion "elm" ExecExample.env [] (Some ExecExample.notFound)
       EmptyString EmptyString
     = Settled (JS.Throw ExecExample.notFound).
Proof.
  split.
  - rewrite (proj1 (getElmVersion_outcome "elm" ExecExample.env
                      [ToStdout ("0.19.1" +:+ String JSText.newline EmptyString)]
                      None ("0.19.1" +:+ String JSText.newline EmptyString)
                      EmptyString)).
    reflexivity.
  - exact (proj1 (getElmVersion_outcome "elm" ExecExample.env []
                    (Some ExecExample.notFound) EmptyString EmptyString)).
Defined.

(** ** The find-tests provider: where suites come from *)

Section ProviderSuites.

Context `{SyntaxAdapter} `{JSON}.

Lemma findExpr_type (key : ExprKey) (node : SyntaxNode)
    (v : ExpressionNodeTypes key) (ty : string) :
  Map_get typeByNodeType key = Some ty ->
  findExpr key (Some node) = Some v -> type (node_of key v) = ty.
Proof.
  unfold findExpr. intros ->.
  destruct (String.eqb_spec (type node) ty) as [Hty|_].
  - destruct (mapSyntaxNodeToExpression (Some node)) as [e|] eqn:He;
      [|discriminate].
    intros Hm. rewrite (mapExpr_expression_node _ _ _ Hm).
    now rewrite (map_node _ _ He).
  - destruct (hd_error (TreeUtils.descendantsOfType node ty)) as [d|] eqn:Hd.
    + destruct (mapSyntaxNodeToExpression (Some d)) as [e|] eqn:He;
        [|discriminate].
      intros Hm. rewrite (mapExpr_expression_node _ _ _ Hm).
      rewrite (map_node _ _ He).
      apply hd_error_In in Hd. now apply descendantsOfType_subtree in Hd.
    + rewrite map_undefined. discriminate.
Qed.

(** What [findTestFunctionCall] hands back. *)
Lemma findTestFunctionCall_Some (node : SyntaxNode)
    (typeChecker : TypeChecker) (call : EFunctionCallExpr) :
  findTestFunctionCall node typeChecker = Some call ->
  In (call_node call) (subtree node)
  /\ type (call_node call) = "function_call_expr"
  /\ isTestType (findType typeChecker (call_node call)).
Proof.
  intros Hcall. split; [now apply findTestFunctionCall_subtree in Hcall|].
  revert call Hcall.
  induction node as [node IH] using SyntaxNode_size_ind. intros call.
  rewrite findTestFunctionCall_eq.
  destruct (findChildExpr KLetInExpr (Some node)) as [letIn|] eqn:Hlet.
  - apply IH. apply node_size_descendant.
    now apply findChildExpr_LetIn_body.
  - destruct (findExpr KFunctionCallExpr (Some node)) as [c|] eqn:Hc;
      [|discriminate].
    pose proof (findExpr_type KFunctionCallExpr node c _ eq_refl Hc) as Hty.
    simpl in Hty. simpl.
    destruct (isFunctionReturningTest _) eqn:Hf.
    { intros [= <-]. split; [exact Hty|]. right.
      now apply isFunctionReturningTest_true. }
    destruct (isUnionTest _) eqn:Hu; [|discriminate].
    intros [= <-]. split; [exact Hty|]. left. now apply isUnionTest_true.
Qed.

Lemma testCalls_below (call : EFunctionCallExpr) (typeChecker : TypeChecker)
    (testExprs : list SyntaxNode) (c : EFunctionCallExpr) :
  option_map exprList (findExpr KListExpr (nth_error (args call) 1))
  = Some testExprs ->
  In (Some c) (map (fun e => findTestFunctionCall e typeChecker) testExprs) ->
  In (call_node c) (descendants (call_node call))
  /\ exists e, findTestFunctionCall e typeChecker = Some c.
Proof.
  destruct (findExpr KListExpr (nth_error (args call) 1)) as [le|] eqn:Hle;
    [|discriminate].
  intros [= <-]. rewrite in_map_iff. intros (e & Hc & He).
  split; [|now exists e].
  destruct (nth_error (args call) 1) as [a|] eqn:Ha; [|discriminate].
  apply subtree_descendants with (m := a).
  { apply args_below. eapply nth_error_In, Ha. }
  apply subtree_trans with (m := list_node le).
  { exact (findExpr_subtree KListExpr a le Hle). }
  right. apply subtree_descendants with (m := e).
  { now apply exprList_below. }
  now apply findTestFunctionCall_subtree in Hc.
Qed.

(** Every suite nested in the suite of a call is itself the suite of a
    call at or below it. *)
Lemma findTestSuite_subSuites (sourceFile : ISourceFile)
    (typeChecker : TypeChecker) (call : EFunctionCallExpr)
    (suite s : TestSuite) :
  findTestSuite (Some call) sourceFile typeChecker = JS.Return (Some suite) ->
  In s (subSuites suite) ->
  exists c,
    In (call_node c) (subtree (call_node call))
    /\ (c = call \/ exists e, findTestFunctionCall e typeChecker = Some c)
    /\ findTestSuite (Some c) sourceFile typeChecker = JS.Return (Some s).
Proof.
  remember (S (node_size (call_node call))) as n eqn:Hn.
  assert (Hlt : node_size (call_node call) < n) by lia. clear Hn.
  revert call suite s Hlt.
  induction n as [|n IH]; intros call suite s Hlt Hsuite Hs; [lia|].
  pose proof Hsuite as Hinv.
  apply findTestSuite_Some_inv in Hinv
    as (_ & _ & _ & _ & _ & _ & _ & _ & Htests).
  destruct suite as [l ts f p]. cbn [tests] in Htests.
  simpl in Hs. destruct Hs as [<-|Hs].
  { exists call. split; [now left|]. split; [now left | exact Hsuite]. }
  destruct ts as [nested|]; [|destruct Hs].
  destruct Htests as (_ & testExprs & found & Hexprs & Hfound & ->).
  apply in_flat_map in Hs as (t & Ht & Hs).
  apply filter_notUndefinedOrNull_In in Ht.
  destruct (mapM_Return_In _ _ _ Hfound _ Ht) as (x & Hx & Hxt).
  destruct x as [cx|];
    [|rewrite findTestSuite_equation_2 in Hxt; discriminate].
  destruct (testCalls_below call typeChecker testExprs cx Hexprs Hx)
    as [Hbelow Hfrom].
  pose proof (node_size_descendant _ _ Hbelow) as Hsize.
  destruct (IH cx t s ltac:(lia) Hxt Hs) as (c & Hc & Horigin & Hcs).
  exists c. split; [|split; [|exact Hcs]].
  - right. exact (subtree_descendants _ _ _ Hbelow Hc).
  - right. destruct Horigin as [->|Horigin]; [exact Hfrom | exact Horigin].
Qed.

(** X8: every suite in the answer, at any depth, names a test file of the
    forest and sits at the start of a function-call node of that file, in
    one of its top-level value declarations, whose type is [Test] or a
    function returning [Test]; and its label is not empty. *)
Theorem findAllTestSuites_located (program : IProgram)
    (suites : list TestSuite) (suite s : TestSuite) :
  findAllTestSuites program = JS.Return suites ->
  In suite suites ->
  In s (subSuites suite) ->
  exists sourceFile top d,
    In sourceFile (treeMap program)
    /\ sf_isTestFile sourceFile = true
    /\ In top (children (rootNode (tree sourceFile)))
    /\ type top = "value_declaration"
    /\ In d (subtree top)
    /\ type d = "function_call_expr"
    /\ isTestType (findType (getTypeChecker program) d)
    /\ file s = uri sourceFile
    /\ position s = {| line := row (startPosition d);
                       character := column (startPosition d) |}
    /\ label s <> EmptyString.
Proof.
  unfold findAllTestSuites, mbind, completion_bind.
  destruct (JS.mapM _ _) as [found|e] eqn:Hfound; simpl; [|discriminate].
  intros [= <-] Hin Hs.
  apply filter_notUndefinedOrNull_In, in_concat in Hin as (l & Hl & Hin).
  destruct (mapM_Return_In _ _ _ Hfound _ Hl) as (sourceFile & Hsf & Hl').
  apply filter_In in Hsf as [Hsf Hflag].
  unfold suitesOfFile, TreeUtils.findAllTopLevelFunctionDeclarations in Hl'.
  destruct (List.filter _ (children (rootNode (tree sourceFile))))
    as [|top0 tops] eqn:Htops.
  { injection Hl' as <-. destruct Hin as [Hin|[]]. discriminate. }
  destruct (mapM_Return_In _ _ _ Hl' _ Hin) as (top & Htop & Hsuite).
  rewrite <- Htops in Htop. apply filter_In in Htop as [Htop Hdecl].
  apply String.eqb_eq in Hdecl.
  destruct (findTestFunctionCall top (getTypeChecker program))
    as [call|] eqn:Hcall;
    [|rewrite findTestSuite_equation_2 in Hsuite; discriminate].
  destruct (findTestSuite_subSuites _ _ _ _ _ Hsuite Hs)
    as (c & Hc & Horigin & Hcs).
  assert (Htest : type (call_node c) = "function_call_expr"
                  /\ isTestType
                       (findType (getTypeChecker program) (call_node c))).
  { destruct Horigin as [->|[e He]].
    - now apply findTestFunctionCall_Some in Hcall.
    - now apply findTestFunctionCall_Some in He. }
  apply findTestSuite_Some_inv in Hcs
    as (_ & _ & _ & _ & _ & Hlabel & Hfile & Hpos & _).
  exists sourceFile, top, (call_node c).
  repeat (split; [assumption || tauto|]).
  split.
  { apply subtree_trans with (m := call_node call); [|exact Hc].
    now apply findTestFunctionCall_subtree in Hcall. }
  tauto.
Qed.

End ProviderSuites.

Lemma findAllTestSuites_located_witness :
  exists sourceFile top d,
    In sourceFile (treeMap Example.program)
    /\ sf_isTestFile sourceFile = true
    /\ In top (children (rootNode (tree sourceFile)))
    /\ type top = "value_declaration"
    /\ In d (subtree top)
    /\ type d = "function_call_expr"
    /\ isTestType (findType (getTypeChecker Example.program) d)
    /\ file Example.firstSuite = uri sourceFile
    /\ position Example.firstSuite
       = {| line := row (startPosition d);
            character := column (startPosition d) |}
    /\ label Example.firstSuite <> EmptyString.
Proof.
  apply (findAllTestSuites_located Example.program [Example.theSuite]
           Example.theSuite Example.firstSuite).
  - exact findAllTestSuites_example.
  - now left.
  - simpl. tauto.
Defined.

(** ** The find-tests provider: [describe] and failing literals *)

Lemma lastIndexOf_from_absent (i acc : Z) (s : string) (c : ascii) :
  ~ In c (list_ascii_of_string s) -> JS.lastIndexOf_from i acc s c = acc.
Proof.
  revert i acc. induction s as [|a s IH]; intros i acc Hc; simpl;
    [reflexivity|].
  destruct (Ascii.eqb_spec a c) as [->|Hne].
  - exfalso. apply Hc. now left.
  - apply IH. intros Hin. apply Hc. now right.
Qed.

Lemma lastIndexOf_from_last (i acc : Z) (before after : string) (c : ascii) :
  ~ In c (list_ascii_of_string after) ->
  JS.lastIndexOf_from i acc (before +:+ String c after) c
  = (i + Z.of_nat (String.length before))%Z.
Proof.
  revert i acc. induction before as [|a before IH]; intros i acc Hc.
  - simpl. rewrite Ascii.eqb_refl, lastIndexOf_from_absent by exact Hc. lia.
  - change (String a before +:+ String c after)
      with (String a (before +:+ String c after)).
    cbn [JS.lastIndexOf_from]. rewrite IH by exact Hc.
    cbn [String.length]. lia.
Qed.

Section ProviderDescribe.

Context `{SyntaxAdapter} `{JSON}.

(** X9: for a call of a function written without a module qualifier,
    [isTestSuite] holds exactly when the name is [describe]; the type
    checker and the imports of the file are not consulted. *)
Theorem isTestSuite_unqualified (call : EFunctionCallExpr)
    (sourceFile : ISourceFile) (typeChecker : TypeChecker)
    (v : EValueExpr) :
  findExpr KValueExpr (Some (target call)) = Some v ->
  ~ In "."%char (list_ascii_of_string (value_name v)) ->
  isTestSuite call sourceFile typeChecker
  = String.eqb (value_name v) "describe".
Proof.
  intros Hv Hdot. unfold isTestSuite. rewrite Hv. simpl.
  unfold JS.lastIndexOf. rewrite lastIndexOf_from_absent by exact Hdot.
  simpl. now rewrite andb_true_r.
Qed.

(** X10: for a call of a qualified function [prefix.base], [isTestSuite]
    holds exactly when the type checker gives a qualifier for [describe]
    under [prefix] that, followed by [describe], is the name as written,
    and the first import the type checker finds for [prefix] is the module
    [Test]. *)
Theorem isTestSuite_qualified (call : EFunctionCallExpr)
    (sourceFile : ISourceFile) (typeChecker : TypeChecker)
    (v : EValueExpr) (prefix base : string) :
  findExpr KValueExpr (Some (target call)) = Some v ->
  value_name v = prefix +:+ String "." base ->
  ~ In "."%char (list_ascii_of_string base) ->
  isTestSuite call sourceFile typeChecker = true
  <-> (exists qualifier,
         getQualifierForName typeChecker sourceFile prefix "describe"
         = Some qualifier
         /\ qualifier +:+ "describe" = value_name v)
      /\ (exists n rest,
            findImportModuleNameNodes typeChecker prefix sourceFile
            = n :: rest
            /\ text n = "Test").
Proof.
  intros Hv Hname Hbase. unfold isTestSuite. rewrite Hv. simpl.
  unfold JS.lastIndexOf. rewrite Hname.
  rewrite lastIndexOf_from_last by exact Hbase. rewrite Z.add_0_l.
  replace (Z.of_nat (String.length prefix) >? -1)%Z with true
    by (symmetry; apply Z.gtb_lt; lia).
  unfold JS.substring0. cbn [option_map].
  rewrite Nat2Z.id, substring_prefix.
  rewrite andb_true_iff, String.eqb_eq.
  assert (Hdotted : prefix +:+ String "." base <> "describe").
  { intros Heq.
    assert (Hin : In "."%char
                    (list_ascii_of_string (prefix +:+ String "." base))).
    { rewrite list_ascii_of_string_app. apply in_or_app. right. now left. }
    rewrite Heq in Hin. vm_compute in Hin. intuition discriminate. }
  split.
  - intros [Hq Hm]. split.
    + destruct (getQualifierForName typeChecker sourceFile prefix "describe")
        as [q|]; simpl in Hq; [now exists q | contradiction].
    + destruct (findImportModuleNameNodes typeChecker prefix sourceFile)
        as [|n rest]; simpl in Hm; [discriminate|].
      exists n, rest. split; [reflexivity | now apply String.eqb_eq].
  - intros [(q & Hq & Hqn) (n & rest & Hn & Ht)].
    rewrite Hq, Hn. simpl. split; [now symmetry | now apply String.eqb_eq].
Qed.

Lemma mapM_Throw {E A B} (f : A -> JS.completion E B) (xs : list A)
    (x : A) (e : E) :
  In x xs -> f x = JS.Throw e -> exists e', JS.mapM f xs = JS.Throw e'.
Proof.
  induction xs as [|a xs IH]; simpl; [tauto|].
  intros [->|Hin] Hx.
  - rewrite Hx. now exists e.
  - destruct (f a) as [b|e0]; simpl; [|now exists e0].
    destruct (IH Hin Hx) as [e' ->]. now exists e'.
Qed.

Lemma findTestSuite_throws (call : EFunctionCallExpr)
    (sourceFile : ISourceFile) (typeChecker : TypeChecker)
    (arg : SyntaxNode) (literals : list EStringConstant)
    (literal : EStringConstant) (e : Exception) :
  findFirstStringArg call typeChecker = Some arg ->
  findAllExprs KStringConstant (Some arg) = Some literals ->
  In literal literals ->
  JSON_parse (text (string_node literal)) = JS.Throw e ->
  exists e',
    findTestSuite (Some call) sourceFile typeChecker = JS.Throw e'.
Proof.
  intros Harg Hlits Hin Hparse.
  rewrite findTestSuite_eq. cbv zeta. unfold mbind, completion_bind.
  rewrite Harg, Hlits.
  destruct (mapM_Throw stringLiteralToLabel
              (map (fun l => text (string_node l)) literals)
              (text (string_node literal)) e) as [e' He'].
  - apply in_map_iff. now exists literal.
  - unfold stringLiteralToLabel, mbind, completion_bind. now rewrite Hparse.
  - rewrite He'. now exists e'.
Qed.

(** X11: one string literal that [JSON.parse] rejects, in the label
    argument of the test call of one top-level declaration of one test
    file, makes the whole request fail: no suite of any file is returned,
    the answer is the response error 13. *)
Theorem onFindTestsRequest_fails_on_rejected_literal
    (elmWorkspaces before after : list IProgram) (program : IProgram)
    (sourceFile : ISourceFile) (top : SyntaxNode) (call : EFunctionCallExpr)
    (arg : SyntaxNode) (literals : list EStringConstant)
    (literal : EStringConstant) (e : Exception) :
  elmWorkspaces = before ++ program :: after ->
  (forall p, In p before -> getRootPath p <> getRootPath program) ->
  In sourceFile (treeMap program) ->
  sf_isTestFile sourceFile = true ->
  In top (children (rootNode (tree sourceFile))) ->
  type top = "value_declaration" ->
  findTestFunctionCall top (getTypeChecker program) = Some call ->
  findFirstStringArg call (getTypeChecker program) = Some arg ->
  findAllExprs KStringConstant (Some arg) = Some literals ->
  In literal literals ->
  JSON_parse (text (string_node literal)) = JS.Throw e ->
  snd (onFindTestsRequest elmWorkspaces (getRootPath program))
  = ResponseError 13 "Error finding tests".
Proof.
  intros -> Hbefore Hsf Hflag Htop Hdecl Hcall Harg Hlits Hin Hparse.
  assert (Hthrow : exists e', findAllTestSuites program = JS.Throw e').
  { destruct (findTestSuite_throws call sourceFile (getTypeChecker program)
                arg literals literal e Harg Hlits Hin Hparse) as [e1 He1].
    assert (Hfile : exists e2,
              suitesOfFile (getTypeChecker program) sourceFile
              = JS.Throw e2).
    { unfold suitesOfFile, TreeUtils.findAllTopLevelFunctionDeclarations.
      assert (Hkept :
        In top (List.filter
                  (fun a => String.eqb (type a) "value_declaration")
                  (children (rootNode (tree sourceFile))))).
      { apply filter_In. split; [exact Htop | now apply String.eqb_eq]. }
      destruct (List.filter _ _) as [|t0 tops] eqn:Htops; [destruct Hkept|].
      apply (mapM_Throw _ _ top e1 Hkept). now rewrite Hcall. }
    destruct Hfile as [e2 He2].
    unfold findAllTestSuites, mbind, completion_bind.
    destruct (mapM_Throw (suitesOfFile (getTypeChecker program))
                (List.filter (fun sf => sf_isTestFile sf) (treeMap program))
                sourceFile e2) as [e3 He3]; [|exact He2|].
    - apply filter_In. now split.
    - rewrite He3. now exists e3. }
  destruct Hthrow as [e' He'].
  unfold onFindTestsRequest, mbind, completion_bind.
  rewrite (find_first_match _ before program after).
  - simpl. now rewrite He'.
  - apply String.eqb_refl.
  - intros p Hp. apply String.eqb_neq. now apply Hbefore.
Qed.

End ProviderDescribe.

Lemma isTestSuite_unqualified_witness :
  isTestSuite Example.describeExpr Example.testFile Example.typeChecker
  = true.
Proof.
  rewrite (isTestSuite_unqualified Example.describeExpr Example.testFile
             Example.typeChecker
             {| value_node := Example.node 4 "value_expr" "describe" 4 4 [];
                value_name := "describe" |}).
  - reflexivity.
  - reflexivity.
  - vm_compute. intuition discriminate.
Defined.

Lemma isTestSuite_qualified_witness :
  isTestSuite QualifiedExample.call Example.testFile
    QualifiedExample.typeChecker
  = true.
Proof.
  apply (isTestSuite_qualified QualifiedExample.call Example.testFile
           QualifiedExample.typeChecker
           {| value_node := QualifiedExample.targetNode;
              value_name := "T.describe" |}
           "T" "describe").
  - reflexivity.
  - reflexivity.
  - vm_compute. intuition discriminate.
  - split.
    + exists "T.". split; reflexivity.
    + exists QualifiedExample.importNode, []. split; reflexivity.
Defined.

Lemma onFindTestsRequest_fails_on_rejected_literal_witness :
  snd (onFindTestsRequest [BadLiteralExample.program] "file:///ws")
  = ResponseError 13 "Error finding tests".
Proof.
  apply (onFindTestsRequest_fails_on_rejected_literal
           [BadLiteralExample.program] [] [] BadLiteralExample.program
           BadLiteralExample.testFile BadLiteralExample.declaration
           BadLiteralExample.describeExpr BadLiteralExample.label
           [{| string_node := BadLiteralExample.label |}]
           {| string_node := BadLiteralExample.label |}
           (SyntaxError (text BadLiteralExample.label))).
  - reflexivity.
  - intros p [].
  - simpl. tauto.
  - reflexivity.
  - simpl. tauto.
  - reflexivity.
  - vm_compute. reflexivity.
  - vm_compute. reflexivity.
  - vm_compute. reflexivity.
  - now left.
  - vm_compute. reflexivity.
Defined.

(** ** [cmp]: a consistent comparison *)

Lemma bool_eq_iff (a b : bool) : (a = true <-> b = true) -> a = b.
Proof. destruct a, b; intuition congruence. Qed.

Section CmpProperties.

Context `{JSNumber}.

Lemma gt_irrefl (x : number) : gt x x = false.
Proof.
  destruct (gt x x) eqn:Hg; [|reflexivity].
  pose proof (gt_asym _ _ Hg). congruence.
Qed.

Lemma gt_NaN_l (x y : number) : isNaN x = true -> gt x y = false.
Proof.
  intros Hx. destruct (gt x y) eqn:Hg; [|reflexivity].
  destruct (gt_not_NaN _ _ Hg). congruence.
Qed.

Lemma gt_NaN_r (x y : number) : isNaN y = true -> gt x y = false.
Proof.
  intros Hy. destruct (gt x y) eqn:Hg; [|reflexivity].
  destruct (gt_not_NaN _ _ Hg). congruence.
Qed.

Lemma gt_trans (x y z : number) :
  gt x y = true -> gt y z = true -> gt x z = true.
Proof.
  intros Hxy Hyz. destruct (gt_not_NaN _ _ Hyz) as [_ Hz].
  destruct (gt_cotrans x z y Hxy Hz) as [Hxz|Hzy]; [exact Hxz|].
  pose proof (gt_asym _ _ Hyz). congruence.
Qed.

Lemma ltb_true (x y : number) :
  ltb x y = true <->
  gt y x = true \/ (isNaN x = true /\ isNaN y = false).
Proof.
  unfold ltb. rewrite orb_true_iff, andb_true_iff, negb_true_iff. tauto.
Qed.

Lemma ltb_asym (x y : number) : ltb x y = true -> ltb y x = false.
Proof.
  rewrite ltb_true. intros Hxy.
  destruct (ltb y x) eqn:Hyx; [|reflexivity]. apply ltb_true in Hyx.
  destruct Hxy as [Hg|[Hx Hy]], Hyx as [Hg'|[Hy' Hx']]; try congruence.
  - pose proof (gt_asym _ _ Hg). congruence.
  - destruct (gt_not_NaN _ _ Hg). congruence.
  - destruct (gt_not_NaN _ _ Hg'). congruence.
Qed.

Lemma ltb_trans (x y z : number) :
  ltb x y = true -> ltb y z = true -> ltb x z = true.
Proof.
  rewrite !ltb_true. intros [Hyx|[Hx Hy]] [Hzy|[Hy' Hz]].
  - left. exact (gt_trans _ _ _ Hzy Hyx).
  - destruct (gt_not_NaN _ _ Hyx). congruence.
  - right. destruct (gt_not_NaN _ _ Hzy). tauto.
  - congruence.
Qed.

(** Two numbers that [cmp] does not tell apart compare alike with any
    third. *)
Lemma ltb_indifferent (x y z : number) :
  ltb x y = false -> ltb y x = false ->
  ltb x z = ltb y z /\ ltb z x = ltb z y.
Proof.
  unfold ltb. rewrite !orb_false_iff, !andb_false_iff, !negb_false_iff.
  intros [Hyx Hn1] [Hxy Hn2].
  assert (Hnan : isNaN x = isNaN y).
  { destruct (isNaN x), (isNaN y); intuition congruence. }
  destruct (isNaN x) eqn:Hx.
  - symmetry in Hnan.
    rewrite (gt_NaN_r z x Hx), (gt_NaN_r z y Hnan),
      (gt_NaN_l x z Hx), (gt_NaN_l y z Hnan), Hnan.
    tauto.
  - symmetry in Hnan. rewrite Hnan. split; f_equal.
    + apply bool_eq_iff. split; intros Hg.
      * destruct (gt_cotrans z y x Hg Hnan) as [Hzy|Hg']; congruence.
      * destruct (gt_cotrans z x y Hg Hx) as [Hzx|Hg']; congruence.
    + apply bool_eq_iff. split; intros Hg.
      * destruct (gt_cotrans x y z Hg Hnan) as [Hg'|Hyz]; congruence.
      * destruct (gt_cotrans y x z Hg Hx) as [Hg'|Hxz]; congruence.
Qed.

Lemma cmpComponent_ltb (x y : number) :
  cmpComponent x y =
  if ltb y x then Some 1%Z else if ltb x y then Some (-1)%Z else None.
Proof.
  unfold cmpComponent, ltb.
  destruct (gt x y) eqn:Hxy.
  - now rewrite orb_true_l.
  - destruct (gt y x) eqn:Hyx.
    + destruct (gt_not_NaN _ _ Hyx) as [Hy Hx]. now rewrite Hx, Hy.
    + simpl. rewrite (andb_comm (isNaN y)).
      destruct (negb (isNaN x) && isNaN y); reflexivity.
Qed.



Lemma cmp_loop_antisym (pa pb : list string) (indices : list nat) :
  cmp_loop pb pa indices = (- cmp_loop pa pb indices)%Z.
Proof.
  induction indices as [|i rest IH]; simpl; [reflexivity|].
  rewrite !cmpComponent_ltb.
  set (x := Number (nth_error pa i)). set (y := Number (nth_error pb i)).
  destruct (ltb x y) eqn:Hxy, (ltb y x) eqn:Hyx; try reflexivity.
  - pose proof (ltb_asym _ _ Hxy). congruence.
  - exact IH.
Qed.

Lemma cmp_loop_trans (pa pb pc : list string) (indices : list nat) :
  (cmp_loop pa pb indices <= 0)%Z -> (cmp_loop pb pc indices <= 0)%Z ->
  (cmp_loop pa pc indices <= 0)%Z.
Proof.
  induction indices as [|i rest IH]; simpl; [lia|].
  rewrite !cmpComponent_ltb.
  set (x := Number (nth_error pa i)). set (y := Number (nth_error pb i)).
  set (z := Number (nth_error pc i)).
  destruct (ltb y x) eqn:Hyx; [lia|].
  destruct (ltb z y) eqn:Hzy; [lia|].
  destruct (ltb x y) eqn:Hxy.
  - intros _. destruct (ltb y z) eqn:Hyz.
    + intros _. rewrite (ltb_trans _ _ _ Hxy Hyz).
      now rewrite (ltb_asym _ _ (ltb_trans _ _ _ Hxy Hyz)).
    + intros _. destruct (ltb_indifferent y z x Hyz Hzy) as [Hl Hr].
      rewrite <- Hl, <- Hr, Hyx, Hxy. lia.
  - destruct (ltb_indifferent x y z Hxy Hyx) as [Hl Hr].
    rewrite Hl, Hr, Hzy. destruct (ltb y z); [lia | exact IH].
Qed.



End CmpProperties.


(** ** [sort] with a consistent comparison *)

Section SortProperties.

Context {A : Type} (compare : A -> A -> Z).
Hypothesis compare_antisym : forall a b, compare b a = (- compare a b)%Z.
Hypothesis compare_trans : forall a b c,
  (compare a b <= 0)%Z -> (compare b c <= 0)%Z -> (compare a c <= 0)%Z.

Lemma Array_insert_In (x y : A) (l : list A) :
  In y (Array_insert compare x l) <-> y = x \/ In y l.
Proof.
  induction l as [|z l IH]; simpl; [intuition congruence|].
  destruct (compare x z >? 0)%Z; simpl; [rewrite IH|]; intuition congruence.
Qed.

Lemma Array_sort_In (y : A) (l : list A) :
  In y (Array_sort compare l) <-> In y l.
Proof.
  induction l as [|x l IH]; simpl; [tauto|].
  rewrite Array_insert_In, IH. intuition congruence.
Qed.

Lemma Array_insert_sorted (x : A) (l : list A) :
  StronglySorted (fun a b => (compare a b <= 0)%Z) l ->
  StronglySorted (fun a b => (compare a b <= 0)%Z)
    (Array_insert compare x l).
Proof using compare_antisym compare_trans.
  induction l as [|y l IH]; simpl; intros Hs.
  - constructor; [constructor | constructor].
  - apply StronglySorted_inv in Hs as [Hs Hall].
    destruct (compare x y >? 0)%Z eqn:Hc.
    + constructor; [now apply IH|].
      apply List.Forall_forall. intros z Hz.
      apply Array_insert_In in Hz as [->|Hz].
      * rewrite compare_antisym. apply Z.gtb_lt in Hc. lia.
      * rewrite List.Forall_forall in Hall. now apply Hall.
    + assert (Hxy : (compare x y <= 0)%Z).
      { destruct (Z.gtb_spec (compare x y) 0); [discriminate | lia]. }
      constructor; [now constructor|].
      constructor; [exact Hxy|].
      rewrite List.Forall_forall in *. intros z Hz.
      exact (compare_trans _ _ _ Hxy (Hall z Hz)).
Qed.

Lemma Array_sort_sorted (l : list A) :
  StronglySorted (fun a b => (compare a b <= 0)%Z) (Array_sort compare l).
Proof using compare_antisym compare_trans.
  induction l as [|x l IH]; simpl; [constructor|].
  now apply Array_insert_sorted.
Qed.

Lemma sorted_last (l : list A) (m x : A) :
  StronglySorted (fun a b => (compare a b <= 0)%Z) l ->
  hd_error (rev l) = Some m -> In x l -> (compare x m <= 0)%Z.
Proof using compare_antisym.
  intros Hs Hm Hx.
  assert (Hl : exists l', l = l' ++ [m]).
  { destruct (rev l) as [|m' r] eqn:Hr; [discriminate|].
    injection Hm as ->. exists (rev r).
    rewrite <- (rev_involutive l), Hr. reflexivity. }
  destruct Hl as [l' ->]. clear Hm.
  apply in_app_or in Hx as [Hx|[<-|[]]].
  - induction l' as [|y l' IH]; [destruct Hx|].
    simpl in Hs. apply StronglySorted_inv in Hs as [Hs Hall].
    destruct Hx as [->|Hx]; [|now apply IH].
    rewrite List.Forall_forall in Hall. apply Hall.
    apply in_or_app. right. now left.
  - pose proof (compare_antisym m m). lia.
Qed.

End SortProperties.

(** ** [findDepVersion] *)

Section FindDepVersionProperties.

Context `{JSNumber}.

Lemma firstMatch_Some {X Y} (f : X -> option Y) (l : list X) (m : Y) :
  Regex.firstMatch f l = Some m -> exists x, In x l /\ f x = Some m.
Proof.
  induction l as [|x l IH]; simpl; [discriminate|].
  destruct (f x) as [y|] eqn:Hx.
  - intros [= <-]. exists x. split; [now left | exact Hx].
  - intros Hm. destruct (IH Hm) as (x' & Hin & Hx').
    exists x'. split; [now right | exact Hx'].
Qed.

Lemma operator_Some {X} (s : string) (k : string -> string -> option X)
    (m : X) :
  Regex.operator s k = Some m ->
  exists op r, (op = "<" \/ op = "<=") /\ k op r = Some m.
Proof.
  unfold Regex.operator.
  destruct (Regex.literal "<" s) as [r|]; simpl.
  - destruct (k "<" r) as [m'|] eqn:Hk.
    + intros [= <-]. exists "<", r. tauto.
    + destruct (Regex.literal "<=" s) as [r'|]; simpl; [|discriminate].
      intros Hk'. exists "<=", r'. tauto.
  - destruct (Regex.literal "<=" s) as [r'|]; simpl; [|discriminate].
    intros Hk'. exists "<=", r'. tauto.
Qed.

(** The operators the expression captures. *)
Lemma exec_operators (text lower lowerOperator upperOperator upper : string) :
  Regex.exec text = Some (lower, lowerOperator, upperOperator, upper) ->
  (lowerOperator = "<" \/ lowerOperator = "<=")
  /\ (upperOperator = "<" \/ upperOperator = "<=").
Proof.
  unfold Regex.exec. intros Hm.
  apply firstMatch_Some in Hm as (line & _ & Hm).
  unfold Regex.matchLine in Hm.
  destruct (Regex.semver line) as [[lo r0]|]; simpl in Hm; [|discriminate].
  destruct (Regex.literal " " r0) as [r1|]; simpl in Hm; [|discriminate].
  apply operator_Some in Hm as (lop & r2 & Hlop & Hm).
  destruct (Regex.literal " v " r2) as [r3|]; simpl in Hm; [|discriminate].
  apply operator_Some in Hm as (uop & r4 & Huop & Hm).
  destruct (Regex.literal " " r4) as [r5|]; simpl in Hm; [|discriminate].
  destruct (Regex.semver r5) as [[up r6]|]; simpl in Hm; [|discriminate].
  destruct r6; [|discriminate]. injection Hm as <- <- <- <-. tauto.
Qed.

Lemma cmp_antisym (a b : string) : cmp b a = (- cmp a b)%Z.
Proof. apply cmp_loop_antisym. Qed.

Lemma cmp_trans (a b c : string) :
  (cmp a b <= 0)%Z -> (cmp b c <= 0)%Z -> (cmp a c <= 0)%Z.
Proof. apply cmp_loop_trans. Qed.

Lemma truthy_true (v : option bool) : truthy v = true <-> v = Some true.
Proof. destruct v as [[|]|]; simpl; intuition congruence. Qed.

Lemma find_exists {X} (f : X -> bool) (l : list X) (x : X) :
  In x l -> f x = true -> exists y, List.find f l = Some y.
Proof.
  induction l as [|a l IH]; simpl; [tauto|].
  intros [->|Hin] Hx.
  - rewrite Hx. now exists x.
  - destruct (f a); [now exists a | now apply IH].
Qed.

(** The folders that pass both filters are the folders in range. *)
Lemma filtered_inRange (all : list VersionFolder)
    (lower lop uop upper : string) (g : VersionFolder) :
  In g (List.filter
          (fun a => truthy (filterSemver upper (version a) uop))
          (List.filter
             (fun a => truthy (filterSemver (version a) lower lop)) all))
  <-> In g all /\ inRange lower lop uop upper (version g).
Proof.
  rewrite !filter_In, !truthy_true. unfold inRange. tauto.
Qed.

(** The latest version in range, when there is one. *)
Lemma latest_spec (all : list VersionFolder) (lower lop uop upper : string)
    (latest : string) :
  hd_error
    (rev (Array_sort cmp
            (map version
               (List.filter
                  (fun a => truthy (filterSemver upper (version a) uop))
                  (List.filter
                     (fun a => truthy (filterSemver (version a) lower lop))
                     all)))))
  = Some latest ->
  (exists g, In g all /\ inRange lower lop uop upper (version g)
             /\ version g = latest)
  /\ forall g, In g all -> inRange lower lop uop upper (version g) ->
               (cmp (version g) latest <= 0)%Z.
Proof.
  set (filtered := List.filter _ (List.filter _ all)).
  intros Hlatest. split.
  - assert (Hin : In latest (map version filtered)).
    { apply (Array_sort_In cmp), in_rev.
      destruct (rev _) as [|m r]; [discriminate|].
      injection Hlatest as ->. now left. }
    apply in_map_iff in Hin as (g & Hg & Hin).
    apply filtered_inRange in Hin as [Hin Hrange]. now exists g.
  - intros g Hg Hrange.
    apply (sorted_last cmp cmp_antisym
             (Array_sort cmp (map version filtered))).
    + apply Array_sort_sorted; [exact cmp_antisym | exact cmp_trans].
    + exact Hlatest.
    + apply Array_sort_In, in_map. now apply filtered_inRange.
Qed.

(** X13: when the text is a range [lower op v op upper], the folder
    [findDepVersion] returns is one of the folders given, its version is in
    the range, and no folder in the range has a later version by [cmp]; a
    folder is returned as soon as one folder is in the range, and none
    otherwise. *)
Theorem findDepVersion_latest_in_range (all : list VersionFolder)
    (versionRange lower lop uop upper : string) :
  Regex.exec versionRange = Some (lower, lop, uop, upper) ->
  (forall f,
     findDepVersion all versionRange = Some f ->
     In f all
     /\ inRange lower lop uop upper (version f)
     /\ forall g, In g all -> inRange lower lop uop upper (version g) ->
                  (cmp (version g) (version f) <= 0)%Z)
  /\ ((exists g, In g all /\ inRange lower lop uop upper (version g)) ->
      exists f, findDepVersion all versionRange = Some f)
  /\ ((forall g, In g all -> ~ inRange lower lop uop upper (version g)) ->
      findDepVersion all versionRange = None).
Proof.
  intros Hexec. unfold findDepVersion. rewrite Hexec. cbv zeta.
  set (latest := hd_error _).
  assert (Hfound : forall f,
    List.find
      (fun a => match latest with
                | Some l => String.eqb (version a) l
                | None => false
                end) all = Some f ->
    In f all
    /\ inRange lower lop uop upper (version f)
    /\ forall g, In g all -> inRange lower lop uop upper (version g) ->
                 (cmp (version g) (version f) <= 0)%Z).
  { intros f Hf. apply find_some in Hf as [Hin Hv].
    destruct latest as [l|] eqn:Hl; [|discriminate].
    apply String.eqb_eq in Hv.
    destruct (latest_spec all lower lop uop upper l Hl)
      as [(g & _ & Hrange & Hg) Hmax].
    rewrite Hv. split; [exact Hin|]. split; [|exact Hmax].
    now rewrite <- Hg. }
  split; [exact Hfound|]. split.
  - intros (g & Hg & Hrange).
    destruct latest as [l|] eqn:Hl.
    + destruct (latest_spec all lower lop uop upper l Hl)
        as [(g' & Hg' & _ & Hv) _].
      apply (find_exists _ all g' Hg'). now apply String.eqb_eq.
    + exfalso. subst latest.
      assert (Hin : In (version g)
                      (rev (Array_sort cmp
                              (map version
                                 (List.filter
                                    (fun a => truthy
                                       (filterSemver upper (version a) uop))
                                    (List.filter
                                       (fun a => truthy
                                          (filterSemver (version a) lower
                                             lop))
                                       all)))))).
      { apply in_rev. rewrite rev_involutive.
        apply Array_sort_In, in_map. now apply filtered_inRange. }
      destruct (rev _); [destruct Hin | discriminate].
  - intros Hnone.
    destruct (List.find _ all) as [f|] eqn:Hf; [|reflexivity].
    destruct (Hfound f eq_refl) as (Hin & Hrange & _).
    exfalso. exact (Hnone f Hin Hrange).
Qed.


End FindDepVersionProperties.

(** ** The range expression, read back *)

Lemma prefix_empty (s : string) : String.prefix EmptyString s = true.
Proof. now destruct s. Qed.

Lemma drop_app (lit rest : string) :
  Regex.drop (String.length lit) (lit +:+ rest) = rest.
Proof. induction lit as [|c lit IH]; [now destruct rest | exact IH]. Qed.

Lemma literal_app (lit rest : string) :
  Regex.literal lit (lit +:+ rest) = Some rest.
Proof.
  unfold Regex.literal.
  assert (Hp : String.prefix lit (lit +:+ rest) = true).
  { apply (proj2 (startsWith_app (lit +:+ rest) lit)). now exists rest. }
  now rewrite Hp, drop_app.
Qed.

Lemma spanDigits_app (d rest : string) :
  forallb Regex.isDigit (list_ascii_of_string d) = true ->
  startsWithoutDigit rest ->
  Regex.spanDigits (d +:+ rest) = (d, rest).
Proof.
  intros Hd Hrest. induction d as [|c d IH].
  - destruct rest as [|c r]; simpl in *; [reflexivity | now rewrite Hrest].
  - simpl in Hd. apply andb_true_iff in Hd as [Hc Hd].
    change (String c d +:+ rest) with (String c (d +:+ rest)).
    cbn [Regex.spanDigits]. now rewrite Hc, (IH Hd).
Qed.

Lemma digits_app (d rest : string) :
  isDigits d -> startsWithoutDigit rest ->
  Regex.digits (d +:+ rest) = Some (d, rest).
Proof.
  intros [Hne Hd] Hrest. unfold Regex.digits.
  rewrite (spanDigits_app _ _ Hd Hrest). now destruct d.
Qed.

Lemma semver_app (a b c rest : string) :
  isDigits a -> isDigits b -> isDigits c -> startsWithoutDigit rest ->
  Regex.semver (a +:+ "." +:+ b +:+ "." +:+ c +:+ rest)
  = Some (a +:+ "." +:+ b +:+ "." +:+ c, rest).
Proof.
  intros Ha Hb Hc Hrest. unfold Regex.semver.
  rewrite (digits_app a) by (exact Ha || reflexivity). simpl.
  rewrite (literal_app "."). simpl.
  rewrite (digits_app b) by (exact Hb || reflexivity). simpl.
  rewrite (literal_app "."). simpl.
  rewrite (digits_app c) by assumption. reflexivity.
Qed.

Lemma operator_first {X} (r : string) (k : string -> string -> option X)
    (m : X) :
  k "<" r = Some m -> Regex.operator ("<" +:+ r) k = Some m.
Proof.
  intros Hk. unfold Regex.operator. rewrite (literal_app "<"). simpl.
  now rewrite Hk.
Qed.

Lemma operator_second {X} (r : string) (k : string -> string -> option X) :
  k "<" ("=" +:+ r) = None -> Regex.operator ("<=" +:+ r) k = k "<=" r.
Proof.
  intros Hk. unfold Regex.operator.
  change ("<=" +:+ r) with ("<" +:+ ("=" +:+ r)) at 1.
  rewrite (literal_app "<"). simpl. rewrite Hk.
  now rewrite (literal_app "<=").
Qed.

Lemma append_nil_r (s : string) : s +:+ EmptyString = s.
Proof.
  induction s as [|c s IH]; [reflexivity|].
  change (String c (s +:+ EmptyString) = String c s). now f_equal.
Qed.

Lemma lines_from_single (cur s : string) :
  forallb (fun c => negb (Regex.isLineTerminator c))
    (list_ascii_of_string s) = true ->
  Regex.lines_from cur s = [cur +:+ s].
Proof.
  revert cur. induction s as [|c s IH]; intros cur Hs; simpl.
  - now rewrite append_nil_r.
  - simpl in Hs. apply andb_true_iff in Hs as [Hc Hs].
    apply negb_true_iff in Hc. rewrite Hc, (IH _ Hs). f_equal.
    now rewrite append_assoc.
Qed.

Lemma digits_no_terminator (d : string) :
  forallb Regex.isDigit (list_ascii_of_string d) = true ->
  forallb (fun c => negb (Regex.isLineTerminator c))
    (list_ascii_of_string d) = true.
Proof.
  induction d as [|c d IH]; simpl; [reflexivity|].
  rewrite !andb_true_iff. intros [Hc Hd]. split; [|now apply IH].
  unfold Regex.isDigit, Regex.isLineTerminator in *.
  apply andb_true_iff in Hc as [Hlo Hhi]. apply Nat.leb_le in Hlo.
  apply negb_true_iff, orb_false_iff.
  split; apply Nat.eqb_neq; lia.
Qed.

Lemma no_terminator_app (a b : string) :
  forallb (fun c => negb (Regex.isLineTerminator c))
    (list_ascii_of_string (a +:+ b))
  = forallb (fun c => negb (Regex.isLineTerminator c))
      (list_ascii_of_string a)
    && forallb (fun c => negb (Regex.isLineTerminator c))
         (list_ascii_of_string b).
Proof. now rewrite list_ascii_of_string_app, forallb_app. Qed.

(** X15: a range written as the expression expects it, two versions of
    three decimal components around [v] with [<] or [<=] on either side,
    is read back as its four parts. *)
Theorem exec_reads_range (a1 a2 a3 b1 b2 b3 lop uop : string) :
  isDigits a1 -> isDigits a2 -> isDigits a3 ->
  isDigits b1 -> isDigits b2 -> isDigits b3 ->
  lop = "<" \/ lop = "<=" ->
  uop = "<" \/ uop = "<=" ->
  Regex.exec
    ((a1 +:+ "." +:+ a2 +:+ "." +:+ a3)
       +:+ " " +:+ lop +:+ " v " +:+ uop +:+ " "
       +:+ (b1 +:+ "." +:+ b2 +:+ "." +:+ b3))
  = Some (a1 +:+ "." +:+ a2 +:+ "." +:+ a3, lop, uop,
          b1 +:+ "." +:+ b2 +:+ "." +:+ b3).
Proof.
  intros Ha1 Ha2 Ha3 Hb1 Hb2 Hb3 Hlop Huop.
  unfold Regex.exec, Regex.lines.
  rewrite lines_from_single.
  2:{ rewrite !no_terminator_app.
      rewrite !(digits_no_terminator _ (proj2 Ha1)),
        !(digits_no_terminator _ (proj2 Ha2)),
        !(digits_no_terminator _ (proj2 Ha3)),
        !(digits_no_terminator _ (proj2 Hb1)),
        !(digits_no_terminator _ (proj2 Hb2)),
        !(digits_no_terminator _ (proj2 Hb3)).
      destruct Hlop as [-> | ->], Huop as [-> | ->]; reflexivity. }
  assert (Hupper :
    Regex.semver (b1 +:+ "." +:+ b2 +:+ "." +:+ b3)
    = Some (b1 +:+ "." +:+ b2 +:+ "." +:+ b3, EmptyString)).
  { pose proof (semver_app b1 b2 b3 EmptyString Hb1 Hb2 Hb3 I) as Hs.
    now rewrite append_nil_r in Hs. }
  assert (Hmatch :
    Regex.matchLine
      ((a1 +:+ "." +:+ a2 +:+ "." +:+ a3)
         +:+ " " +:+ lop +:+ " v " +:+ uop +:+ " "
         +:+ (b1 +:+ "." +:+ b2 +:+ "." +:+ b3))
    = Some (a1 +:+ "." +:+ a2 +:+ "." +:+ a3, lop, uop,
            b1 +:+ "." +:+ b2 +:+ "." +:+ b3)).
  { unfold Regex.matchLine.
    rewrite !append_assoc.
    rewrite (semver_app a1 a2 a3) by (assumption || reflexivity).
    cbn [mbind option_bind]. rewrite (literal_app " ").
    cbn [mbind option_bind].
    assert (Hinner : forall r0,
      r0 = uop +:+ " " +:+ b1 +:+ "." +:+ b2 +:+ "." +:+ b3 ->
      Regex.operator r0
        (fun upperOperator r =>
           r ← Regex.literal " " r;
           '(upper, r) ← Regex.semver r;
           match r with
           | EmptyString =>
               Some (a1 +:+ "." +:+ a2 +:+ "." +:+ a3, lop, upperOperator,
                     upper)
           | _ => None
           end)
      = Some (a1 +:+ "." +:+ a2 +:+ "." +:+ a3, lop, uop,
              b1 +:+ "." +:+ b2 +:+ "." +:+ b3)).
    { intros r0 ->. destruct Huop as [-> | ->].
      - apply operator_first. rewrite (literal_app " ").
        cbn [mbind option_bind]. now rewrite Hupper.
      - rewrite operator_second by reflexivity.
        rewrite (literal_app " "). cbn [mbind option_bind].
        now rewrite Hupper. }
    destruct Hlop as [-> | ->].
    - apply operator_first. rewrite (literal_app " v ").
      cbn [mbind option_bind]. now apply Hinner.
    - rewrite operator_second by reflexivity.
      rewrite (literal_app " v "). cbn [mbind option_bind].
      now apply Hinner. }
  cbn [Regex.firstMatch].
  change (EmptyString +:+ ?x) with x. now rewrite Hmatch.
Qed.

Lemma exec_reads_range_witness :
  Regex.exec "1.0.0 <= v < 2.0.0" = Some ("1.0.0", "<=", "<", "2.0.0").
Proof.
  assert (H0 : isDigits "0") by (split; [discriminate | reflexivity]).
  assert (H1 : isDigits "1") by (split; [discriminate | reflexivity]).
  assert (H2 : isDigits "2") by (split; [discriminate | reflexivity]).
  exact (exec_reads_range "1" "0" "0" "2" "0" "0" "<=" "<"
           H1 H0 H0 H2 H0 H0 (or_intror eq_refl) (or_introl eq_refl)).
Defined.

Lemma findDepVersion_latest_in_range_witness :
  let latest := {| version := "1.0.10"; versionPath := "/elm/core/1.0.10" |} in
  findDepVersion DecimalExample.folders "1.0.0 <= v < 2.0.0" = Some latest
  /\ In latest DecimalExample.folders
  /\ inRange "1.0.0" "<=" "<" "2.0.0" "1.0.10"
  /\ forall g, In g DecimalExample.folders ->
               inRange "1.0.0" "<=" "<" "2.0.0" (version g) ->
               (cmp (version g) "1.0.10" <= 0)%Z.
Proof.
  cbv zeta.
  assert (Hfound :
    findDepVersion DecimalExample.folders "1.0.0 <= v < 2.0.0"
    = Some {| version := "1.0.10"; versionPath := "/elm/core/1.0.10" |})
    by (vm_compute; reflexivity).
  split; [exact Hfound|].
  exact (proj1 (findDepVersion_latest_in_range DecimalExample.folders
                  "1.0.0 <= v < 2.0.0" "1.0.0" "<=" "<" "2.0.0"
                  ltac:(vm_compute; reflexivity))
           _ Hfound).
Defined.


Example findDepVersion_numeric_order :
  cmp "1.0.10" "1.0.5" = 1%Z /\ cmp "1.0" "1.0.0" = (-1)%Z.
Proof. split; reflexivity. Qed.

(** ** [cmp] reads three components *)

Section CmpComponents.

Context `{JSNumber}.

Lemma cmp_loop_prefix (pa pa' pb : list string) (indices : list nat) :
  (forall i, In i indices -> nth_error pa' i = nth_error pa i) ->
  cmp_loop pa' pb indices = cmp_loop pa pb indices.
Proof.
  induction indices as [|i rest IH]; simpl; intros Hsame; [reflexivity|].
  rewrite (Hsame i (or_introl eq_refl)), IH; [reflexivity|].
  intros j Hj. apply Hsame. now right.
Qed.

(** X16: only the first three components of a version count: whatever
    follows a third component is ignored, so [1.2.3.9] compares like
    [1.2.3] with every version. *)
Theorem cmp_three_components (a more b : string) :
  3 <= length (JS.split a ".") ->
  cmp (a +:+ String "." more) b = cmp a b
  /\ cmp b (a +:+ String "." more) = cmp b a.
Proof.
  intros Hlen.
  assert (Hleft : cmp (a +:+ String "." more) b = cmp a b).
  { unfold cmp, JS.split. rewrite split_from_app.
    apply cmp_loop_prefix. intros i Hi.
    apply nth_error_app1. fold (JS.split a ".").
    simpl in Hi. lia. }
  split; [exact Hleft|].
  now rewrite (cmp_antisym _ b), Hleft, <- (cmp_antisym a b).
Qed.

End CmpComponents.

Lemma cmp_three_components_witness :
  cmp "1.2.3.9" "1.2.3" = cmp "1.2.3" "1.2.3"
  /\ cmp "1.2.3" "1.2.3.9" = cmp "1.2.3" "1.2.3".
Proof.
  apply (cmp_three_components "1.2.3" "9" "1.2.3"). simpl. lia.
Defined.
